(** * FileWatch.hpp: a shallow embedding of [filewatch::FileWatch<T>]

    The header watches one file or one directory.  A monitor thread reads
    raw notification records from the operating system (inotify on unix,
    ReadDirectoryChangesW on Windows), turns them into portable
    [(file, Event)] pairs and appends them to a mutex-guarded vector; a
    second thread swaps that vector out and calls the user's callback on
    every pair.

    The embedding follows the source function by function.  Both
    preprocessor targets are kept: a [Platform] value selects what the
    [#ifdef _WIN32] / [#if __unix__] blocks select. *)

From Stdlib Require Import List Bool ZArith Lia Ascii String.
Import ListNotations.

(** ** Characters and strings

    [T] is [std::string] or [std::wstring]; the code only compares
    characters and writes character literals (through [_T] on Windows). *)

Class CharType (C : Type) := {
  ch_eqb : C -> C -> bool;
  ch_eqb_spec : forall a b : C, reflect (a = b) (ch_eqb a b);
  ch_lit : ascii -> C
}.

#[export] Instance char_CharType : CharType ascii := {
  ch_eqb := Ascii.eqb;
  ch_eqb_spec := Ascii.eqb_spec;
  ch_lit := fun a => a
}.

#[export] Instance wchar_t_CharType : CharType N := {
  ch_eqb := N.eqb;
  ch_eqb_spec := N.eqb_spec;
  ch_lit := N_of_ascii
}.

(** [#ifdef _WIN32] / [#if __unix__]. *)
Inductive Platform := Win32 | Unix.

(** [enum class Event]. *)
Inductive Event := added | removed | modified | renamed_old | renamed_new.

Section PathResolver.
Context {C : Type} `{CharType C}.

(** A string literal of the source, in the character type of [T]. *)
Definition lit (s : string) : list C := map ch_lit (list_ascii_of_string s).

(** [operator==] on [std::basic_string]. *)
Fixpoint str_eqb (a b : list C) : bool :=
  match a, b with
  | [], [] => true
  | x :: a', y :: b' => ch_eqb x y && str_eqb a' b'
  | _, _ => false
  end.

(** [struct PathParts]. *)
Record PathParts := { directory : list C; filename : list C }.

(** The backslash character. *)
Definition backslash : ascii := ascii_of_nat 92.

(** The lambda [predict] of [split_directory_and_file]. *)
Definition predict (p : Platform) (character : C) : bool :=
  match p with
  | Win32 => ch_eqb character (ch_lit backslash) || ch_eqb character (ch_lit "/"%char)
  | Unix => ch_eqb character (ch_lit "/"%char)
  end.

Definition this_directory : list C := lit "./".

(** [std::find_if] over a range: the position of the first element that
    satisfies [pred], the length of the range (its end) when none does. *)
Fixpoint find_if (pred : C -> bool) (range : list C) : nat :=
  match range with
  | [] => 0
  | c :: rest => if pred c then 0 else S (find_if pred rest)
  end.

(** [std::find_if(path.rbegin(), path.rend(), predict).base()], as an
    index into [path]: a reverse iterator [k] steps after [rbegin] has
    [base()] at index [size - k]; [rend().base()] is [begin()]. *)
Definition pivot (p : Platform) (path : list C) : nat :=
  List.length path - find_if (predict p) (rev path).

Definition split_directory_and_file (p : Platform) (path : list C) : PathParts :=
  let pivot := pivot p path in
  let directory :=
    let extracted_directory := firstn pivot path in
    if Nat.ltb 0 (List.length extracted_directory)
    then extracted_directory else this_directory in
  let filename := skipn pivot path in
  {| directory := directory; filename := filename |}.

(** The members of [FileWatch] that the filter reads. *)
Record WatchTarget := {
  _path : list C;
  _watching_single_file : bool;
  _filename : list C
}.

Definition pass_filter (p : Platform) (w : WatchTarget) (file_path : list C) : bool :=
  if _watching_single_file w then
    let extracted_filename := filename (split_directory_and_file p file_path) in
    str_eqb extracted_filename (_filename w)
  else true.

End PathResolver.

Arguments PathParts C : clear implicits.
Arguments WatchTarget C : clear implicits.

(** ** The monitor loop *)

Section Monitor.
Context {C : Type} `{CharType C}.
Local Open Scope Z_scope.

(** [std::pair<T, Event>], the element type of [_callback_information]. *)
Definition Info : Type := list C * Event.

Definition _buffer_size : Z := 1024 * 256.

(** Reading a C string: the characters before the first NUL. *)
Fixpoint c_str (mem : list C) : list C :=
  match mem with
  | [] => []
  | c :: rest => if ch_eqb c (ch_lit zero) then [] else c :: c_str rest
  end.

(** Conversion of a value to [int] (32 bits, two's complement). *)
Definition to_int (z : Z) : Z :=
  let m := z mod 2 ^ 32 in if m <? 2 ^ 31 then m else m - 2 ^ 32.

(** What one pass over a raw buffer ends in: the parsed batch, the
    [std::out_of_range] of [std::map::at] leaving the thread, or an
    access outside the buffer. *)
Inductive Decoded :=
| Batch (parsed_information : list Info)
| out_of_range
| bad_access.

(** *** unix: inotify *)

(** [struct inotify_event] of <sys/inotify.h>; [name] holds the
    characters stored after the header. *)
Record inotify_event := {
  wd : Z; mask : Z; cookie : Z; len : Z; name : list C
}.

(** Constants of <sys/inotify.h>. *)
Definition IN_MODIFY : Z := 2.
Definition IN_MOVED_FROM : Z := 64.
Definition IN_MOVED_TO : Z := 128.
Definition IN_CREATE : Z := 256.
Definition IN_DELETE : Z := 512.

Definition unix_listen_filters : Z := Z.lor (Z.lor IN_MODIFY IN_CREATE) IN_DELETE.

(** [sizeof(struct inotify_event)]. *)
Definition event_size : Z := 16.

(** The body of the inner [while] of the unix [monitor_directory],
    up to the advance of [i]. *)
Definition unix_record (w : WatchTarget C) (event : inotify_event)
    (parsed_information : list Info) : list Info :=
  if negb (len event =? 0) then
    let changed_file := c_str (name event) in
    if pass_filter Unix w changed_file then
      if negb (Z.land (mask event) IN_CREATE =? 0) then
        parsed_information ++ [(changed_file, added)]
      else if negb (Z.land (mask event) IN_DELETE =? 0) then
        parsed_information ++ [(changed_file, removed)]
      else if negb (Z.land (mask event) IN_MODIFY =? 0) then
        parsed_information ++ [(changed_file, modified)]
      else parsed_information
    else parsed_information
  else parsed_information.

(** The inner [while (i < length)].  [buffer i] is the struct the cast
    of the address of [buffer[i]] reads.  [i] is an [int]; a
    negative index is outside the vector.  [None]: the fuel ran out. *)
Fixpoint unix_decode (fuel : nat) (w : WatchTarget C) (buffer : Z -> inotify_event)
    (length : Z) (i : Z) (parsed_information : list Info) : option Decoded :=
  match fuel with
  | O => None
  | S fuel' =>
    if i <? length then
      if i <? 0 then Some bad_access
      else
        let event := buffer i in
        unix_decode fuel' w buffer length
          (to_int (i + (event_size + len event)))
          (unix_record w event parsed_information)
    else Some (Batch parsed_information)
  end.

(** *** Windows: ReadDirectoryChangesW *)

(** [FILE_NOTIFY_INFORMATION] of <winnt.h>; [FileName] holds the
    characters stored from that field on. *)
Record FILE_NOTIFY_INFORMATION := {
  NextEntryOffset : Z; Action : Z; FileNameLength : Z; FileName : list C
}.

(** Constants of <winnt.h>. *)
Definition FILE_ACTION_ADDED : Z := 1.
Definition FILE_ACTION_REMOVED : Z := 2.
Definition FILE_ACTION_MODIFIED : Z := 3.
Definition FILE_ACTION_RENAMED_OLD_NAME : Z := 4.
Definition FILE_ACTION_RENAMED_NEW_NAME : Z := 5.

Definition _event_type_mapping : list (Z * Event) :=
  [ (FILE_ACTION_ADDED, added);
    (FILE_ACTION_REMOVED, removed);
    (FILE_ACTION_MODIFIED, modified);
    (FILE_ACTION_RENAMED_OLD_NAME, renamed_old);
    (FILE_ACTION_RENAMED_NEW_NAME, renamed_new) ].

(** [std::map::at]: [None] stands for the [std::out_of_range] it throws. *)
Fixpoint map_at (m : list (Z * Event)) (key : Z) : option Event :=
  match m with
  | [] => None
  | (k, v) :: rest => if k =? key then Some v else map_at rest key
  end.

(** The body of the [do] loop of the Windows [monitor_directory], up to
    the test of [NextEntryOffset]; [None] when [at] throws. *)
Definition win_record (w : WatchTarget C) (file_information : FILE_NOTIFY_INFORMATION)
    (parsed_information : list Info) : option (list Info) :=
  let changed_file :=
    firstn (Z.to_nat (FileNameLength file_information / 2)) (FileName file_information) in
  if pass_filter Win32 w changed_file then
    match map_at _event_type_mapping (Action file_information) with
    | Some e => Some (parsed_information ++ [(changed_file, e)])
    | None => None
    end
  else Some parsed_information.

(** The [do { ... } while (true)] loop.  [buffer off] is the struct the
    cast reads [off] bytes into the buffer. *)
Fixpoint win_decode (fuel : nat) (w : WatchTarget C)
    (buffer : Z -> FILE_NOTIFY_INFORMATION) (off : Z)
    (parsed_information : list Info) : option Decoded :=
  match fuel with
  | O => None
  | S fuel' =>
    if (off <? 0) || (_buffer_size <=? off) then Some bad_access
    else
      let file_information := buffer off in
      match win_record w file_information parsed_information with
      | None => Some out_of_range
      | Some parsed_information' =>
        if NextEntryOffset file_information =? 0 then Some (Batch parsed_information')
        else win_decode fuel' w buffer (off + NextEntryOffset file_information)
               parsed_information'
      end
  end.

(** Whether a pair is something other than one half of a rename. *)
Definition not_a_rename (i : Info) : bool :=
  match snd i with
  | renamed_old | renamed_new => false
  | _ => true
  end.

(** *** One read of either platform *)

Inductive RawRead :=
| inotify_read (buffer : Z -> inotify_event) (length : Z)
| directory_changes (buffer : Z -> FILE_NOTIFY_INFORMATION) (bytes_returned : Z).

(** What one iteration of the outer loop of [monitor_directory] hands to
    [_callback_information.insert]: nothing is parsed when [read]
    returns no bytes ([length > 0] fails, [bytes_returned == 0]). *)
Definition monitor_parse (fuel : nat) (w : WatchTarget C) (r : RawRead) : option Decoded :=
  match r with
  | inotify_read buffer length =>
    if 0 <? length then unix_decode fuel w buffer length 0 [] else Some (Batch [])
  | directory_changes buffer bytes_returned =>
    if bytes_returned =? 0 then Some (Batch []) else win_decode fuel w buffer 0 []
  end.

(** *** Buffers as the operating system fills them *)

(** The vectors are value-initialised: every byte not written is zero. *)
Definition zero_event : inotify_event :=
  {| wd := 0; mask := 0; cookie := 0; len := 0; name := [] |}.
Definition zero_information : FILE_NOTIFY_INFORMATION :=
  {| NextEntryOffset := 0; Action := 0; FileNameLength := 0; FileName := [] |}.

(** inotify writes its events back to back, each [event_size + len]
    bytes long, the first at [start]. *)
Fixpoint inotify_buffer (events : list inotify_event) (start : Z) (i : Z) : inotify_event :=
  match events with
  | [] => zero_event
  | e :: rest =>
    if i =? start then e else inotify_buffer rest (start + (event_size + len e)) i
  end.

Fixpoint inotify_length (events : list inotify_event) : Z :=
  match events with
  | [] => 0
  | e :: rest => event_size + len e + inotify_length rest
  end.

(** A buffer holding the given records at the given byte offsets. *)
Fixpoint directory_buffer (records : list (Z * FILE_NOTIFY_INFORMATION)) (off : Z)
    : FILE_NOTIFY_INFORMATION :=
  match records with
  | [] => zero_information
  | (o, r) :: rest => if off =? o then r else directory_buffer rest off
  end.

(** *** What a pass over well-formed records amounts to *)

(** [buffer] holds [events] back to back from byte [i] on. *)
Fixpoint holds_events (buffer : Z -> inotify_event) (i : Z) (events : list inotify_event)
    : Prop :=
  match events with
  | [] => True
  | e :: rest =>
    buffer i = e /\ 0 <= len e /\ holds_events buffer (i + (event_size + len e)) rest
  end.

(** [unix_record] over a list of events, first to last. *)
Definition unix_records (w : WatchTarget C) (events : list inotify_event)
    (parsed_information : list Info) : list Info :=
  fold_left (fun parsed e => unix_record w e parsed) events parsed_information.

(** [buffer] holds, from byte [off] on, the chain [records] whose last
    element [final] is the first with [NextEntryOffset] zero. *)
Fixpoint holds_chain (buffer : Z -> FILE_NOTIFY_INFORMATION) (off : Z)
    (records : list FILE_NOTIFY_INFORMATION) (final : FILE_NOTIFY_INFORMATION) : Prop :=
  match records with
  | [] => 0 <= off < _buffer_size /\ buffer off = final /\ NextEntryOffset final = 0
  | r :: rest =>
    0 <= off < _buffer_size /\ buffer off = r /\ 0 < NextEntryOffset r /\
    holds_chain buffer (off + NextEntryOffset r) rest final
  end.

(** [win_record] over a list of records, first to last, up to the first
    [std::out_of_range]. *)
Fixpoint win_records (w : WatchTarget C) (records : list FILE_NOTIFY_INFORMATION)
    (parsed_information : list Info) : Decoded :=
  match records with
  | [] => Batch parsed_information
  | r :: rest =>
    match win_record w r parsed_information with
    | None => out_of_range
    | Some parsed_information' => win_records w rest parsed_information'
    end
  end.

(** The inotify queue of a watch keeps an event only when one of its
    bits is in the mask given to [inotify_add_watch] (inotify(7)). *)
Definition inotify_queues (watch_mask : Z) (e : inotify_event) : bool :=
  negb (Z.land watch_mask (mask e) =? 0).

End Monitor.

Arguments inotify_event C : clear implicits.
Arguments FILE_NOTIFY_INFORMATION C : clear implicits.
Arguments Info C : clear implicits.
Arguments Decoded C : clear implicits.
Arguments RawRead C : clear implicits.

(** ** The callback thread, the queue and the destructor *)

Section Session.
Context {C : Type} `{CharType C}.

(** What a call of the user's [std::function] does: it returns, throws
    an exception derived from [std::exception], or throws anything else
    (C++ lets a function throw a value of any type). *)
Inductive Outcome := returns | throws_std_exception | throws_other.

(** The user's function.  It may keep state of its own, so what a call
    does may depend on the calls made before it. *)
Definition Callback : Type := list (Info C) -> list C -> Event -> Outcome.

Record FileWatch := {
  platform : Platform;
  target : WatchTarget C;
  _callback : option Callback      (* an empty std::function is None *)
}.

(** One pass through the body of [for (const auto& file : callback_information)]:
    the calls made so far afterwards, and whether an exception left the
    [try] block uncaught ([catch (const std::exception&)] is the only
    handler). *)
Definition for_body (w : FileWatch) (calls : list (Info C)) (file : Info C)
    : list (Info C) * bool :=
  match _callback w with
  | None => (calls, false)
  | Some callback =>
    (calls ++ [file],
     match callback calls (fst file) (snd file) with
     | returns => false
     | throws_std_exception => false
     | throws_other => true
     end)
  end.

(** The whole range-[for]: the calls made, and [Some rest] when an
    exception escaped with [rest] not yet visited. *)
Fixpoint for_loop (w : FileWatch) (calls : list (Info C))
    (callback_information : list (Info C)) : list (Info C) * option (list (Info C)) :=
  match callback_information with
  | [] => (calls, None)
  | file :: rest =>
    let (calls', escaped) := for_body w calls file in
    if escaped then (calls', Some rest) else for_loop w calls' rest
  end.

(** Where the callback thread is in [callback_thread]. *)
Inductive Dispatcher :=
| at_while                      (* about to test [_destory == false] *)
| at_lock                       (* about to construct the [unique_lock] *)
| at_if                         (* lock held, about to test the [if] *)
| at_wait_predicate             (* in [cv.wait], lock held, about to test the predicate *)
| blocked                       (* in [cv.wait], lock released *)
| at_swap                       (* lock held, about to swap and unlock *)
| in_for (callback_information : list (Info C))
| exited                        (* left the [while]: the thread is joinable *)
| terminated (callback_information : list (Info C)).
                                (* an exception left the thread function *)

Definition holds_lock (d : Dispatcher) : bool :=
  match d with
  | at_if | at_wait_predicate | at_swap => true
  | _ => false
  end.

(** Where the owner of the object is in [~FileWatch]. *)
Inductive Destructor := not_called | joining | returned.

(** The shared members, the three threads, and a record of what has
    happened: [reads] lists what the monitor read from the operating
    system, [decoded] every pair it inserted, [visited] every pair the
    range-[for] went through, [calls] every pair the callback was called
    with, each in order of occurrence. *)
Record Session := {
  _destory : bool;
  _callback_information : list (Info C);
  dispatcher : Dispatcher;
  watch_thread_running : bool;
  destructor : Destructor;
  reads : list (RawRead C);
  decoded : list (Info C);
  visited : list (Info C);
  calls : list (Info C)
}.

(** After the constructor: both threads started, nothing read yet. *)
Definition constructed : Session :=
  {| _destory := false; _callback_information := []; dispatcher := at_while;
     watch_thread_running := true; destructor := not_called;
     reads := []; decoded := []; visited := []; calls := [] |}.

Definition goto (s : Session) (d : Dispatcher) : Session :=
  {| _destory := _destory s; _callback_information := _callback_information s;
     dispatcher := d;
     watch_thread_running := watch_thread_running s; destructor := destructor s;
     reads := reads s; decoded := decoded s; visited := visited s; calls := calls s |}.

(** [_callback_information.insert(end, parsed.begin(), parsed.end())]. *)
Definition insert_at_end (s : Session) (r : RawRead C)
    (parsed_information : list (Info C)) : Session :=
  {| _destory := _destory s;
     _callback_information := _callback_information s ++ parsed_information;
     dispatcher := dispatcher s;
     watch_thread_running := watch_thread_running s; destructor := destructor s;
     reads := reads s ++ [r]; decoded := decoded s ++ parsed_information;
     visited := visited s; calls := calls s |}.

(** [std::swap(callback_information, _callback_information); lock.unlock()]. *)
Definition swap_out (s : Session) : Session :=
  {| _destory := _destory s; _callback_information := [];
     dispatcher := in_for (_callback_information s);
     watch_thread_running := watch_thread_running s; destructor := destructor s;
     reads := reads s; decoded := decoded s; visited := visited s; calls := calls s |}.

Definition visit (w : FileWatch) (s : Session) (file : Info C) (rest : list (Info C))
    : Session :=
  let body := for_body w (calls s) file in
  {| _destory := _destory s; _callback_information := _callback_information s;
     dispatcher := if snd body then terminated rest else in_for rest;
     watch_thread_running := watch_thread_running s; destructor := destructor s;
     reads := reads s; decoded := decoded s; visited := visited s ++ [file];
     calls := fst body |}.

Definition leave_monitor (s : Session) : Session :=
  {| _destory := _destory s; _callback_information := _callback_information s;
     dispatcher := dispatcher s;
     watch_thread_running := false; destructor := destructor s;
     reads := reads s; decoded := decoded s; visited := visited s; calls := calls s |}.

Definition destroy (s : Session) : Session :=
  {| _destory := true; _callback_information := _callback_information s;
     dispatcher := dispatcher s;
     watch_thread_running := watch_thread_running s; destructor := joining;
     reads := reads s; decoded := decoded s; visited := visited s; calls := calls s |}.

Definition return_from_destructor (s : Session) : Session :=
  {| _destory := _destory s; _callback_information := _callback_information s;
     dispatcher := dispatcher s;
     watch_thread_running := watch_thread_running s; destructor := returned;
     reads := reads s; decoded := decoded s; visited := visited s; calls := calls s |}.

Definition platform_of (r : RawRead C) : Platform :=
  match r with inotify_read _ _ => Unix | directory_changes _ _ => Win32 end.

Definition is_empty (l : list (Info C)) : bool :=
  match l with [] => true | _ => false end.

(** One atomic action of one of the three threads.  [_destory] is a
    [std::atomic<bool>] and [_callback_information] is only touched with
    [_callback_mutex] held, so the executions of the object are the
    interleavings of these actions. *)
Inductive step (w : FileWatch) (s : Session) : Session -> Prop :=
(* callback_thread *)
| while_true :
    dispatcher s = at_while -> _destory s = false -> step w s (goto s at_lock)
| while_false :
    dispatcher s = at_while -> _destory s = true -> step w s (goto s exited)
| lock :
    dispatcher s = at_lock -> step w s (goto s at_if)
| if_then :
    dispatcher s = at_if ->
    is_empty (_callback_information s) && negb (_destory s) = true ->
    step w s (goto s at_wait_predicate)
| if_else :
    dispatcher s = at_if ->
    is_empty (_callback_information s) && negb (_destory s) = false ->
    step w s (goto s at_swap)
| wait_predicate_true :
    dispatcher s = at_wait_predicate ->
    negb (is_empty (_callback_information s)) || _destory s = true ->
    step w s (goto s at_swap)
| wait_predicate_false :
    dispatcher s = at_wait_predicate ->
    negb (is_empty (_callback_information s)) || _destory s = false ->
    step w s (goto s blocked)
| wake :     (* [notify_all], or a spurious wake-up; the lock is taken again *)
    dispatcher s = blocked -> step w s (goto s at_wait_predicate)
| swap :
    dispatcher s = at_swap -> step w s (swap_out s)
| for_next file rest :
    dispatcher s = in_for (file :: rest) -> step w s (visit w s file rest)
| for_end :
    dispatcher s = in_for [] -> step w s (goto s at_while)
(* monitor_directory *)
| publish fuel r parsed_information :
    watch_thread_running s = true ->
    holds_lock (dispatcher s) = false ->
    platform_of r = platform w ->
    monitor_parse fuel (target w) r = Some (Batch parsed_information) ->
    step w s (insert_at_end s r parsed_information)
| monitor_leaves :
    watch_thread_running s = true -> _destory s = true ->
    step w s (leave_monitor s)
(* ~FileWatch *)
| destructor_called :
    destructor s = not_called -> step w s (destroy s)
| destructor_returns :   (* both [join]s have returned *)
    destructor s = joining ->
    watch_thread_running s = false -> dispatcher s = exited ->
    step w s (return_from_destructor s).

Inductive reachable (w : FileWatch) : Session -> Prop :=
| reach_constructed : reachable w constructed
| reach_step s s' : reachable w s -> step w s s' -> reachable w s'.

(** Several actions in a row. *)
Inductive steps (w : FileWatch) : Session -> Session -> Prop :=
| steps_none s : steps w s s
| steps_more s s' s'' : step w s s' -> steps w s' s'' -> steps w s s''.

(** The pairs the callback thread has swapped out and not yet visited. *)
Definition in_flight (s : Session) : list (Info C) :=
  match dispatcher s with
  | in_for l => l
  | terminated l => l
  | _ => []
  end.

(** [batch] is what the monitor parses from the read [r]. *)
Definition parsed_from (w : FileWatch) (r : RawRead C) (batch : list (Info C)) : Prop :=
  exists fuel, monitor_parse fuel (target w) r = Some (Batch batch).

End Session.

Arguments Callback C : clear implicits.
Arguments FileWatch C : clear implicits.
Arguments Session C : clear implicits.
Arguments Dispatcher C : clear implicits.

(** ** Construction *)

Section Construction.
Context {C : Type} `{CharType C}.
Local Open Scope Z_scope.

Inductive Thread := the_callback_thread | the_watch_thread.

(** What the process holds from the operating system. *)
Inductive Held :=
| descriptor (fd : Z)          (* an open file descriptor *)
| watch (fd wd : Z)            (* a watch registered on an inotify descriptor *)
| handle (h : Z)               (* an open HANDLE *)
| thread (t : Thread).         (* a started std::thread *)

(** A function either returns or throws [std::system_error]. *)
Inductive Raised (A : Type) := value (a : A) | system_error.
Arguments value {A} a.
Arguments system_error {A}.

(** *** unix *)

(** What the system calls of [get_directory] answer.  [stat] answers
    [None] for a non-zero return, else whether [S_ISREG] holds. *)
Record unix_calls := {
  inotify_init : Z;
  stat : list C -> option bool;
  inotify_add_watch : Z -> list C -> Z -> Z
}.

Record FolderInfo := { folder : Z; folder_watch : Z }.

(** [is_file]. *)
Definition is_file (os : unix_calls) (path : list C) : Raised bool :=
  match stat os path with
  | None => system_error
  | Some is_reg => value is_reg
  end.

(** The unix [get_directory], threading what is held. *)
Definition unix_get_directory (os : unix_calls) (held : list Held) (path : list C)
    : list Held * Raised (WatchTarget C * FolderInfo) :=
  let folder := inotify_init os in
  if folder <? 0 then (held, system_error)
  else
    let held := held ++ [descriptor folder] in
    match is_file os path with
    | system_error => (held, system_error)
    | value single =>
      let parsed_path := split_directory_and_file Unix path in
      let w := {| _path := path; _watching_single_file := single;
                  _filename := if single then filename parsed_path else [] |} in
      let watch_path := if single then directory parsed_path else path in
      let wd := inotify_add_watch os folder watch_path unix_listen_filters in
      if wd <? 0 then (held, system_error)
      else (held ++ [watch folder wd], value (w, {| folder := folder; folder_watch := wd |}))
    end.

(** The constructor on unix: the member initialiser calls
    [get_directory]; when that throws, neither the constructor body nor
    the destructor runs. *)
Definition unix_construct (os : unix_calls) (path : list C) (callback : option (Callback C))
    : list Held * Raised (FileWatch C * FolderInfo) :=
  match unix_get_directory os [] path with
  | (held, system_error) => (held, system_error)
  | (held, value (w, dir)) =>
    (held ++ [thread the_callback_thread; thread the_watch_thread],
     value ({| platform := Unix; target := w; _callback := callback |}, dir))
  end.

(** *** Windows *)

Definition INVALID_FILE_ATTRIBUTES : Z := 4294967295.
Definition FILE_ATTRIBUTE_DIRECTORY : Z := 16.
Definition INVALID_HANDLE_VALUE : Z := -1.

(** What the calls of the Windows [get_directory] and of the constructor
    answer; [CreateEvent] answers [0] for a null handle. *)
Record win_calls := {
  GetFileAttributes : list C -> Z;
  CreateFile : list C -> Z;
  CreateEvent : Z
}.

Definition win_get_directory (os : win_calls) (held : list Held) (path : list C)
    : list Held * Raised (WatchTarget C * Z) :=
  let file_info := GetFileAttributes os path in
  if file_info =? INVALID_FILE_ATTRIBUTES then (held, system_error)
  else
    let single := Z.land file_info FILE_ATTRIBUTE_DIRECTORY =? 0 in
    let parsed_path := split_directory_and_file Win32 path in
    let w := {| _path := path; _watching_single_file := single;
                _filename := if single then filename parsed_path else [] |} in
    let watch_path := if single then directory parsed_path else path in
    let directory := CreateFile os watch_path in
    if directory =? INVALID_HANDLE_VALUE then (held, system_error)
    else (held ++ [handle directory], value (w, directory)).

Definition win_construct (os : win_calls) (path : list C) (callback : option (Callback C))
    : list Held * Raised (FileWatch C * Z) :=
  match win_get_directory os [] path with
  | (held, system_error) => (held, system_error)
  | (held, value (w, dir)) =>
    let _close_event := CreateEvent os in
    if _close_event =? 0 then (held, system_error)
    else
      (held ++ [handle _close_event; thread the_callback_thread; thread the_watch_thread],
       value ({| platform := Win32; target := w; _callback := callback |}, dir))
  end.

Definition is_thread (h : Held) : bool :=
  match h with thread _ => true | _ => false end.

End Construction.

Arguments value {A} a.
Arguments system_error {A}.
Arguments unix_calls C : clear implicits.
Arguments win_calls C : clear implicits.

(** ** The outer loops of [monitor_directory] *)

Section MonitorThread.
Context {C : Type} `{CharType C}.
Local Open Scope Z_scope.

(** How the thread function stands after the rounds it was given: it
    returned, it is blocked waiting for the operating system, or it was
    left by an exception or by an access outside the buffer. *)
Inductive ThreadEnd := thread_returns | still_waiting | threw_out_of_range | accessed_outside.

(** Return values of [WaitForMultipleObjects] (<winbase.h>). *)
Definition WAIT_OBJECT_0 : Z := 0.
Definition WAIT_FAILED : Z := 4294967295.

(** One round of the Windows [do] loop as the thread sees it: what
    [WaitForMultipleObjects] returns, what the buffer and
    [bytes_returned] hold after [GetOverlappedResult], and what the test
    [_destory == false] at the end of the round reads. *)
Record win_round := {
  wait_result : Z;
  round_buffer : Z -> FILE_NOTIFY_INFORMATION C;
  round_bytes_returned : Z;
  destory_at_test : bool
}.

(** The [switch]: only [case WAIT_OBJECT_0] parses. *)
Definition win_round_parse (fuel : nat) (w : WatchTarget C) (r : win_round)
    : option (Decoded C) :=
  if wait_result r =? WAIT_OBJECT_0
  then monitor_parse fuel w (directory_changes (round_buffer r) (round_bytes_returned r))
  else Some (Batch []).

(** The Windows [monitor_directory] from the [do] on: the batches handed
    to [_callback_information.insert], one per round, whether
    [async_pending] holds after the loop (then [CancelIo] is called), and
    how the thread stands. *)
Fixpoint win_monitor (fuel : nat) (w : WatchTarget C) (rounds : list win_round)
    : option (list (list (Info C)) * bool * ThreadEnd) :=
  match rounds with
  | [] => Some ([], true, still_waiting)
  | r :: rest =>
    match win_round_parse fuel w r with
    | None => None
    | Some out_of_range => Some ([], false, threw_out_of_range)
    | Some bad_access => Some ([], false, accessed_outside)
    | Some (Batch parsed_information) =>
      if destory_at_test r
      then Some ([parsed_information], negb (wait_result r =? WAIT_OBJECT_0), thread_returns)
      else
        match win_monitor fuel w rest with
        | None => None
        | Some (inserted, async_pending, e) =>
          Some (parsed_information :: inserted, async_pending, e)
        end
    end
  end.

(** One round of the unix [while] loop: what the test [_destory == false]
    reads, and what [read] leaves in the buffer and returns. *)
Record unix_round := {
  destory_at_while : bool;
  read_buffer : Z -> inotify_event C;
  read_length : Z
}.

(** The unix [monitor_directory]: the batches inserted (one per read that
    returned a positive length) and how the thread stands. *)
Fixpoint unix_monitor (fuel : nat) (w : WatchTarget C) (rounds : list unix_round)
    : option (list (list (Info C)) * ThreadEnd) :=
  match rounds with
  | [] => Some ([], still_waiting)
  | r :: rest =>
    if destory_at_while r then Some ([], thread_returns)
    else if 0 <? read_length r then
      match unix_decode fuel w (read_buffer r) (read_length r) 0 [] with
      | None => None
      | Some out_of_range => Some ([], threw_out_of_range)
      | Some bad_access => Some ([], accessed_outside)
      | Some (Batch parsed_information) =>
        match unix_monitor fuel w rest with
        | None => None
        | Some (inserted, e) => Some (parsed_information :: inserted, e)
        end
      end
    else unix_monitor fuel w rest
  end.

End MonitorThread.

Arguments win_round C : clear implicits.
Arguments unix_round C : clear implicits.

(** ** The destructor and what it gives back *)

Section Teardown.
Context {C : Type} `{CharType C}.
Local Open Scope Z_scope.

Definition same_thread (a b : Thread) : bool :=
  match a, b with
  | the_callback_thread, the_callback_thread => true
  | the_watch_thread, the_watch_thread => true
  | _, _ => false
  end.

Definition same_held (a b : Held) : bool :=
  match a, b with
  | descriptor x, descriptor y => x =? y
  | watch f x, watch g y => (f =? g) && (x =? y)
  | handle x, handle y => x =? y
  | thread x, thread y => same_thread x y
  | _, _ => false
  end.

(** Giving [h] back: it is no longer held. *)
Definition release (h : Held) (held : list Held) : list Held :=
  filter (fun x => negb (same_held h x)) held.

(** [~FileWatch] on unix: [inotify_rm_watch], the two [join]s, [close]. *)
Definition unix_destruct (dir : FolderInfo) (held : list Held) : list Held :=
  let held := release (watch (folder dir) (folder_watch dir)) held in
  let held := release (thread the_watch_thread) held in
  let held := release (thread the_callback_thread) held in
  release (descriptor (folder dir)) held.


(** The places of [callback_thread] between the test of the [while] and
    the swap. *)
Definition past_the_test (d : Dispatcher C) : bool :=
  match d with
  | at_lock | at_if | at_wait_predicate | blocked | at_swap => true
  | _ => false
  end.

(** The name [string_type changed_file] of the Windows loop. *)
Definition changed_file (r : FILE_NOTIFY_INFORMATION C) : list C :=
  firstn (Z.to_nat (FileNameLength r / 2)) (FileName r).

End Teardown.

(** ** Concrete data used by the examples below *)

(** Literals of [std::string] and of [std::wstring]. *)
Definition str (x : string) : list ascii := lit x.
Definition wide (x : string) : list N := lit x.

(** A session on the directory [/tmp/w], and one on the file [/tmp/w/x.txt]. *)
Definition directory_watch : WatchTarget ascii :=
  {| _path := str "/tmp/w"; _watching_single_file := false; _filename := [] |}.
Definition file_watch : WatchTarget ascii :=
  {| _path := str "/tmp/w/x.txt"; _watching_single_file := true; _filename := str "x.txt" |}.

(** An inotify event about [file]: the kernel pads the name with NULs,
    here to 16 bytes. *)
Definition inotify_about (m : Z) (file : string) : inotify_event ascii :=
  {| wd := 1; mask := m; cookie := 0; len := 16;
     name := str file ++ repeat zero (16 - String.length file) |}.

(** [IN_Q_OVERFLOW] of <sys/inotify.h>: the kernel reports a full queue by
    an event without a name. *)
Definition IN_Q_OVERFLOW : Z := 16384.
Definition queue_overflow : inotify_event ascii :=
  {| wd := -1; mask := IN_Q_OVERFLOW; cookie := 0; len := 0; name := [] |}.

(** [FILE_ACTION_ADDED_STREAM] of <winnt.h>, an action code that is not a
    key of [_event_type_mapping]. *)
Definition FILE_ACTION_ADDED_STREAM : Z := 6.

(** A Windows record about [file], [next] bytes before the next one. *)
Definition information_about (next action : Z) (file : string)
    : FILE_NOTIFY_INFORMATION ascii :=
  {| NextEntryOffset := next; Action := action;
     FileNameLength := 2 * Z.of_nat (String.length file); FileName := str file |}.

(** What the kernel generates for [rename("a.txt", "b.txt")] inside a
    watched directory (inotify(7)), before the mask of the watch is applied. *)
Definition inotify_rename : list (inotify_event ascii) :=
  [ {| wd := 1; mask := IN_MOVED_FROM; cookie := 7; len := 16;
       name := str "a.txt" ++ repeat zero 11 |};
    {| wd := 1; mask := IN_MOVED_TO; cookie := 7; len := 16;
       name := str "b.txt" ++ repeat zero 11 |} ].

(** What ReadDirectoryChangesW reports for the same rename. *)
Definition directory_rename : list (Z * FILE_NOTIFY_INFORMATION ascii) :=
  [ (0%Z, information_about 24 FILE_ACTION_RENAMED_OLD_NAME "a.txt");
    (24%Z, information_about 0 FILE_ACTION_RENAMED_NEW_NAME "b.txt") ].

(** A session on the directory, on unix, with the given callback. *)
Definition session_with (callback : option (Callback ascii)) : FileWatch ascii :=
  {| platform := Unix; target := directory_watch; _callback := callback |}.

Definition well_behaved : FileWatch ascii := session_with (Some (fun _ _ _ => returns)).
Definition throwing_runtime_error : FileWatch ascii :=
  session_with (Some (fun _ _ _ => throws_std_exception)).
Definition throwing_int : FileWatch ascii := session_with (Some (fun _ _ _ => throws_other)).
Definition without_callback : FileWatch ascii := session_with None.

Definition a_added : Info ascii := (str "a.txt", added).
Definition b_added : Info ascii := (str "b.txt", added).

(** What [read] returns after the given events. *)
Definition read_of (events : list (inotify_event ascii)) : RawRead ascii :=
  inotify_read (inotify_buffer events 0) (inotify_length events).

(** An execution: [a.txt] is created and swapped out by the callback
    thread; before the callback is called, [b.txt] is created and
    inserted, and the owner destroys the object. *)
Definition late_event_run (w : FileWatch ascii) : Session ascii :=
  let s1 := insert_at_end constructed
              (read_of [inotify_about IN_CREATE "a.txt"]) [a_added] in
  let s2 := goto s1 at_lock in
  let s3 := goto s2 at_if in
  let s4 := goto s3 at_swap in
  let s5 := swap_out s4 in
  let s6 := insert_at_end s5 (read_of [inotify_about IN_CREATE "b.txt"]) [b_added] in
  let s7 := destroy s6 in
  let s8 := visit w s7 a_added [] in
  let s9 := goto s8 at_while in
  let s10 := goto s9 exited in
  let s11 := leave_monitor s10 in
  return_from_destructor s11.

(** An execution: [a.txt] and [b.txt] are created and read together,
    swapped out, and the callback is called for [a.txt]. *)
Definition first_call_run (w : FileWatch ascii) : Session ascii :=
  let s1 := insert_at_end constructed
              (read_of [inotify_about IN_CREATE "a.txt"; inotify_about IN_CREATE "b.txt"])
              [a_added; b_added] in
  let s2 := goto s1 at_lock in
  let s3 := goto s2 at_if in
  let s4 := goto s3 at_swap in
  let s5 := swap_out s4 in
  visit w s5 a_added [b_added].

(** Answers of the operating system: [inotify_init] gives descriptor 3
    and [stat] fails; [stat] finds a directory and [inotify_add_watch]
    fails; on Windows, [GetFileAttributes] fails; [CreateFile] fails. *)
Definition stat_fails : unix_calls ascii :=
  {| inotify_init := 3; stat := fun _ => None; inotify_add_watch := fun _ _ _ => 1%Z |}.
Definition add_watch_fails : unix_calls ascii :=
  {| inotify_init := 3; stat := fun _ => Some false;
     inotify_add_watch := fun _ _ _ => (-1)%Z |}.
Definition attributes_fail : win_calls ascii :=
  {| GetFileAttributes := fun _ => INVALID_FILE_ATTRIBUTES;
     CreateFile := fun _ => 100%Z; CreateEvent := 104 |}.
Definition create_file_fails : win_calls ascii :=
  {| GetFileAttributes := fun _ => FILE_ATTRIBUTE_DIRECTORY;
     CreateFile := fun _ => INVALID_HANDLE_VALUE; CreateEvent := 104 |}.

(** An event whose name length is [2^32 - event_size]. *)
Definition wrapping_event : inotify_event ascii :=
  {| wd := 1; mask := IN_CREATE; cookie := 0; len := 4294967280; name := [] |}.

(** The flag is set while the callback thread is about to take the lock,
    with [a.txt] queued. *)
Definition destroyed_before_the_lock : Session ascii :=
  destroy (goto (insert_at_end constructed
                   (read_of [inotify_about IN_CREATE "a.txt"]) [a_added]) at_lock).

(** Answers of the operating system for a construction that succeeds. *)
Definition unix_succeeds : unix_calls ascii :=
  {| inotify_init := 3; stat := fun _ => Some false; inotify_add_watch := fun _ _ _ => 1%Z |}.
Definition create_event_fails : win_calls ascii :=
  {| GetFileAttributes := fun _ => FILE_ATTRIBUTE_DIRECTORY;
     CreateFile := fun _ => 100%Z; CreateEvent := 0 |}.

(** Rounds of the Windows loop: a failed wait with the flag clear, then
    the rename read with the flag set. *)
Definition failed_wait : win_round ascii :=
  {| wait_result := WAIT_FAILED; round_buffer := directory_buffer [];
     round_bytes_returned := 0; destory_at_test := false |}.
Definition rename_then_destroyed : win_round ascii :=
  {| wait_result := WAIT_OBJECT_0; round_buffer := directory_buffer directory_rename;
     round_bytes_returned := 48; destory_at_test := true |}.

(** Rounds of the unix loop: [read] fails, then returns one event. *)
Definition failed_read : unix_round ascii :=
  {| destory_at_while := false; read_buffer := inotify_buffer [] 0; read_length := -1 |}.
Definition read_a : unix_round ascii :=
  {| destory_at_while := false;
     read_buffer := inotify_buffer [inotify_about IN_CREATE "a.txt"] 0; read_length := 32 |}.

(* ================================================================== *)
(** * Properties *)

Section PathResolverFacts.
Context {C : Type} `{CharType C}.

Lemma str_eqb_eq (a b : list C) : str_eqb a b = true <-> a = b.
Proof.
  revert b; induction a as [|x a IH]; intros [|y b]; simpl; split;
    try congruence; try reflexivity.
  - intros E. apply andb_true_iff in E as [E1 E2].
    destruct (ch_eqb_spec x y); try discriminate.
    apply IH in E2. congruence.
  - intros E. injection E as -> ->.
    apply andb_true_iff; split.
    + destruct (ch_eqb_spec y y); congruence.
    + now apply IH.
Qed.

Lemma ch_eqb_eq (a b : C) : ch_eqb a b = true <-> a = b.
Proof. destruct (ch_eqb_spec a b); split; congruence. Qed.

Lemma find_if_app (pred : C -> bool) (l1 l2 : list C) :
  (forall c, In c l1 -> pred c = false) ->
  find_if pred (l1 ++ l2) = List.length l1 + find_if pred l2.
Proof.
  induction l1 as [|x l1 IH]; simpl; intros Hno; [reflexivity|].
  rewrite (Hno x) by now left.
  f_equal. apply IH. intros c Hc. apply Hno. now right.
Qed.

Lemma find_if_none (pred : C -> bool) (l : list C) :
  (forall c, In c l -> pred c = false) -> find_if pred l = List.length l.
Proof.
  intros Hno. rewrite <- (app_nil_r l) at 1.
  rewrite find_if_app by assumption. simpl. lia.
Qed.

Lemma pivot_after_last (p : Platform) (pre post : list C) (sep : C) :
  predict p sep = true ->
  (forall c, In c post -> predict p c = false) ->
  pivot p (pre ++ sep :: post) = S (List.length pre).
Proof.
  intros Hsep Hpost. unfold pivot.
  rewrite rev_app_distr. simpl rev. rewrite <- app_assoc. simpl app.
  rewrite find_if_app.
  - simpl. rewrite Hsep. rewrite length_rev, length_app. simpl. lia.
  - intros c Hc. apply Hpost. now apply in_rev.
Qed.

Lemma pivot_none (p : Platform) (path : list C) :
  (forall c, In c path -> predict p c = false) -> pivot p path = 0.
Proof.
  intros Hno. unfold pivot. rewrite find_if_none.
  - rewrite length_rev. lia.
  - intros c Hc. apply Hno. now apply in_rev.
Qed.

Lemma last_separator (p : Platform) (path : list C) :
  (forall c, In c path -> predict p c = false) \/
  (exists pre sep post,
      path = pre ++ sep :: post /\ predict p sep = true /\
      (forall c, In c post -> predict p c = false)).
Proof.
  induction path as [|x rest IH].
  - left. intros c [].
  - destruct IH as [Hno | (pre & sep & post & -> & Hsep & Hpost)].
    + destruct (predict p x) eqn:Hx.
      * right. exists [], x, rest. auto.
      * left. intros c [<- | Hc]; auto.
    + right. exists (x :: pre), sep, post. auto.
Qed.

(** C5.  The separators are ['/'] on unix and ['/'] or the backslash on
    Windows.  A path is split at its last separator: the directory is
    everything up to and including it, the file name everything after
    it.  A path without a separator has directory ["./"] and is its own
    file name.  Every path is of one of these two forms. *)
Theorem split_directory_and_file_last_separator (p : Platform) (path : list C) :
  (forall c, predict p c = true <->
             (c = ch_lit "/"%char \/ (p = Win32 /\ c = ch_lit backslash))) /\
  (forall pre sep post,
      path = pre ++ sep :: post ->
      predict p sep = true ->
      (forall c, In c post -> predict p c = false) ->
      split_directory_and_file p path = {| directory := pre ++ [sep]; filename := post |}) /\
  ((forall c, In c path -> predict p c = false) ->
   split_directory_and_file p path = {| directory := lit "./"; filename := path |}) /\
  ((forall c, In c path -> predict p c = false) \/
   (exists pre sep post,
       path = pre ++ sep :: post /\ predict p sep = true /\
       (forall c, In c post -> predict p c = false))).
Proof.
  split; [|split; [|split; [|apply last_separator]]].
  - intros c. destruct p; simpl.
    + rewrite orb_true_iff, !ch_eqb_eq. intuition congruence.
    + rewrite ch_eqb_eq. intuition congruence.
  - intros pre sep post -> Hsep Hpost.
    unfold split_directory_and_file.
    rewrite (pivot_after_last p pre post sep Hsep Hpost).
    assert (Hf : firstn (S (List.length pre)) (pre ++ sep :: post) = pre ++ [sep]).
    { replace (S (List.length pre)) with (List.length (pre ++ [sep]))
        by (rewrite length_app; simpl; lia).
      change (sep :: post) with ([sep] ++ post). rewrite app_assoc.
      rewrite firstn_app, Nat.sub_diag, firstn_all. simpl. now rewrite app_nil_r. }
    assert (Hs : skipn (S (List.length pre)) (pre ++ sep :: post) = post).
    { replace (S (List.length pre)) with (List.length (pre ++ [sep]))
        by (rewrite length_app; simpl; lia).
      change (sep :: post) with ([sep] ++ post). rewrite app_assoc.
      rewrite skipn_app, Nat.sub_diag, skipn_all. reflexivity. }
    rewrite Hf, Hs. rewrite length_app. simpl.
    replace (List.length pre + 1) with (S (List.length pre)) by lia.
    reflexivity.
  - intros Hno. unfold split_directory_and_file.
    rewrite (pivot_none p path Hno). reflexivity.
Qed.

(** C6.  In directory mode every name passes.  In single-file mode a
    name passes exactly when what [split_directory_and_file] leaves as
    its file name is, character for character, the recorded
    [_filename]. *)
Theorem pass_filter_spec (p : Platform) (w : WatchTarget C) (file_path : list C) :
  (_watching_single_file w = false -> pass_filter p w file_path = true) /\
  (_watching_single_file w = true ->
   (pass_filter p w file_path = true <->
    filename (split_directory_and_file p file_path) = _filename w)).
Proof.
  unfold pass_filter. split; intros ->; [reflexivity|].
  apply str_eqb_eq.
Qed.

End PathResolverFacts.

Lemma split_directory_and_file_last_separator_witness :
  split_directory_and_file Unix (str "dir/sub/a.txt")
    = {| directory := str "dir/sub/"; filename := str "a.txt" |} /\
  split_directory_and_file Win32 (str "test.txt")
    = {| directory := str "./"; filename := str "test.txt" |} /\
  split_directory_and_file Win32 (wide "dir" ++ ch_lit backslash :: wide "a.txt")
    = {| directory := wide "dir" ++ [ch_lit backslash]; filename := wide "a.txt" |}.
Proof.
  split; [|split].
  - apply (proj1 (proj2 (split_directory_and_file_last_separator
                           Unix (str "dir/sub/a.txt"))) (str "dir/sub") "/"%char (str "a.txt")).
    + reflexivity.
    + reflexivity.
    + intros c Hc. simpl in Hc.
      repeat (destruct Hc as [<- | Hc]; [reflexivity|]). destruct Hc.
  - apply (proj1 (proj2 (proj2 (split_directory_and_file_last_separator
                                  Win32 (str "test.txt"))))).
    intros c Hc. simpl in Hc.
    repeat (destruct Hc as [<- | Hc]; [reflexivity|]). destruct Hc.
  - apply (proj1 (proj2 (split_directory_and_file_last_separator
                           Win32 (wide "dir" ++ ch_lit backslash :: wide "a.txt")))
                 (wide "dir") (ch_lit backslash) (wide "a.txt")).
    + reflexivity.
    + reflexivity.
    + intros c Hc. simpl in Hc.
      repeat (destruct Hc as [<- | Hc]; [reflexivity|]). destruct Hc.
Defined.

Lemma pass_filter_spec_witness :
  pass_filter Unix directory_watch (str "y.txt") = true /\
  pass_filter Unix file_watch (str "x.txt") = true.
Proof.
  split.
  - exact (proj1 (pass_filter_spec Unix directory_watch (str "y.txt")) eq_refl).
  - apply (proj2 (pass_filter_spec Unix file_watch (str "x.txt")) eq_refl).
    reflexivity.
Defined.

Section MonitorFacts.
Context {C : Type} `{CharType C}.
Local Open Scope Z_scope.

Lemma to_int_small (z : Z) : 0 <= z < 2 ^ 31 -> to_int z = z.
Proof.
  intros Hz. unfold to_int. rewrite Z.mod_small by lia.
  destruct (Z.ltb_spec z (2 ^ 31)); lia.
Qed.

Lemma inotify_length_nonneg (buffer : Z -> inotify_event C) (events : list (inotify_event C)) :
  forall i, holds_events buffer i events -> 0 <= inotify_length events.
Proof.
  induction events as [|e rest IH]; cbn [holds_events inotify_length]; intros i Hh; [lia|].
  destruct Hh as (_ & Hlen & Hrest). specialize (IH _ Hrest).
  unfold event_size. lia.
Qed.

(** The unix loop over well-formed input: it visits every event the
    buffer holds, in order, and ends when [i] reaches [length]. *)
Lemma unix_decode_events (w : WatchTarget C) (buffer : Z -> inotify_event C) (length : Z) :
  length < 2 ^ 31 ->
  forall events fuel i parsed,
    (List.length events < fuel)%nat ->
    0 <= i ->
    holds_events buffer i events ->
    i + inotify_length events = length ->
    unix_decode fuel w buffer length i parsed
      = Some (Batch (unix_records w events parsed)).
Proof.
  intros Hlength. induction events as [|e rest IH]; intros fuel i parsed Hfuel Hi Hh Hend.
  - destruct fuel as [|fuel]; [simpl in Hfuel; lia|].
    cbn [inotify_length] in Hend. cbn [unix_decode].
    replace (i <? length) with false; [reflexivity|].
    symmetry. apply Z.ltb_ge. lia.
  - destruct fuel as [|fuel]; [simpl in Hfuel; lia|].
    cbn [holds_events] in Hh. destruct Hh as (Hb & Hlen & Hrest).
    pose proof (inotify_length_nonneg _ _ _ Hrest) as Hnn.
    cbn [inotify_length] in Hend. unfold event_size in *.
    assert (Hlt : i < length) by (clear IH; lia).
    assert (Hnext : 0 <= i + (16 + len e) < 2 ^ 31) by (clear IH; lia).
    assert (Hrem : i + (16 + len e) + inotify_length rest = length) by (clear IH; lia).
    cbn [unix_decode].
    apply Z.ltb_lt in Hlt. rewrite Hlt.
    replace (i <? 0) with false by (symmetry; apply Z.ltb_ge; exact Hi).
    rewrite Hb. unfold event_size. rewrite (to_int_small _ Hnext).
    apply IH; [|apply Hnext|exact Hrest|exact Hrem].
    simpl in Hfuel. apply PeanoNat.lt_S_n. exact Hfuel.
Qed.

(** The Windows loop over a chain: it visits the chain up to and
    including the first record with [NextEntryOffset] zero, and reads
    nothing else of the buffer. *)
Lemma win_decode_chain (w : WatchTarget C) (buffer : Z -> FILE_NOTIFY_INFORMATION C)
    (final : FILE_NOTIFY_INFORMATION C) :
  forall records fuel off parsed,
    (List.length records < fuel)%nat ->
    holds_chain buffer off records final ->
    win_decode fuel w buffer off parsed
      = Some (win_records w (records ++ [final]) parsed).
Proof.
  induction records as [|r rest IH]; intros fuel off parsed Hfuel Hc;
    (destruct fuel as [|fuel]; [simpl in Hfuel; lia|]); cbn [holds_chain] in Hc.
  - destruct Hc as (Hoff & Hb & Hz).
    cbn [win_decode app win_records].
    replace ((off <? 0) || (_buffer_size <=? off))%bool with false
      by (symmetry; apply orb_false_iff; split; [apply Z.ltb_ge|apply Z.leb_gt]; lia).
    rewrite Hb. destruct (win_record w final parsed); [|reflexivity].
    rewrite Hz. reflexivity.
  - destruct Hc as (Hoff & Hb & Hnz & Hrest).
    cbn [win_decode app win_records].
    replace ((off <? 0) || (_buffer_size <=? off))%bool with false
      by (symmetry; apply orb_false_iff; split; [apply Z.ltb_ge|apply Z.leb_gt]; lia).
    rewrite Hb. destruct (win_record w r parsed) as [parsed'|]; [|reflexivity].
    replace (NextEntryOffset r =? 0) with false by (symmetry; apply Z.eqb_neq; lia).
    apply IH; [simpl in Hfuel; lia|exact Hrest].
Qed.

Lemma unix_record_zero_length (w : WatchTarget C) (e : inotify_event C)
    (parsed : list (Info C)) :
  len e = 0 -> unix_record w e parsed = parsed.
Proof. intros He. unfold unix_record. rewrite He. reflexivity. Qed.

(** On unix a record none of whose mask bits is tested adds nothing. *)
Lemma unix_record_unmapped (w : WatchTarget C) (e : inotify_event C)
    (parsed : list (Info C)) :
  Z.land (mask e) IN_CREATE = 0 -> Z.land (mask e) IN_DELETE = 0 ->
  Z.land (mask e) IN_MODIFY = 0 ->
  unix_record w e parsed = parsed.
Proof.
  intros H1 H2 H3. unfold unix_record. rewrite H1, H2, H3. simpl.
  destruct (negb (len e =? 0)), (pass_filter Unix w (c_str (name e))); reflexivity.
Qed.

(** On Windows a record that passes the filter and whose action has no
    entry in the table makes [at] throw. *)
Lemma win_record_unmapped (w : WatchTarget C) (r : FILE_NOTIFY_INFORMATION C)
    (parsed : list (Info C)) :
  pass_filter Win32 w (firstn (Z.to_nat (FileNameLength r / 2)) (FileName r)) = true ->
  map_at _event_type_mapping (Action r) = None ->
  win_record w r parsed = None.
Proof. intros Hp Hm. unfold win_record. rewrite Hp, Hm. reflexivity. Qed.

(** The unix loop only ever reports [added], [removed] and [modified]. *)
Lemma unix_record_kinds (w : WatchTarget C) (e : inotify_event C)
    (parsed : list (Info C)) (file : list C) (kind : Event) :
  In (file, kind) (unix_record w e parsed) ->
  In (file, kind) parsed \/ kind = added \/ kind = removed \/ kind = modified.
Proof.
  unfold unix_record.
  repeat match goal with
         | |- context [if ?b then _ else _] => destruct b
         end;
    intros Hin; try (now left);
    apply in_app_or in Hin as [Hin | [Hin | []]]; try (now left);
    injection Hin as _ <-; auto.
Qed.

(** More fuel does not change what a pass gives. *)
Lemma unix_decode_more_fuel (w : WatchTarget C) (buffer : Z -> inotify_event C) (length : Z) :
  forall fuel i parsed r,
    unix_decode fuel w buffer length i parsed = Some r ->
    forall more, unix_decode (fuel + more) w buffer length i parsed = Some r.
Proof.
  induction fuel as [|fuel IH]; intros i parsed r Hr more; [discriminate|].
  cbn [unix_decode Nat.add] in *.
  destruct (i <? length); [|exact Hr].
  destruct (i <? 0); [exact Hr|]. now apply IH.
Qed.

Lemma win_decode_more_fuel (w : WatchTarget C) (buffer : Z -> FILE_NOTIFY_INFORMATION C) :
  forall fuel off parsed r,
    win_decode fuel w buffer off parsed = Some r ->
    forall more, win_decode (fuel + more) w buffer off parsed = Some r.
Proof.
  induction fuel as [|fuel IH]; intros off parsed r Hr more; [discriminate|].
  cbn [win_decode Nat.add] in *.
  destruct ((off <? 0) || (_buffer_size <=? off))%bool; [exact Hr|].
  destruct (win_record w (buffer off) parsed) as [parsed'|]; [|exact Hr].
  destruct (NextEntryOffset (buffer off) =? 0); [exact Hr|]. now apply IH.
Qed.

Lemma monitor_parse_more_fuel (w : WatchTarget C) (r : RawRead C) (fuel : nat)
    (d : Decoded C) :
  monitor_parse fuel w r = Some d ->
  forall more, monitor_parse (fuel + more) w r = Some d.
Proof.
  destruct r as [buffer length | buffer bytes_returned]; simpl; intros Hd more.
  - destruct (0 <? length); [now apply unix_decode_more_fuel | exact Hd].
  - destruct (bytes_returned =? 0); [exact Hd | now apply win_decode_more_fuel].
Qed.

(** So what is parsed from a read does not depend on the fuel. *)
Lemma monitor_parse_deterministic (w : WatchTarget C) (r : RawRead C)
    (fuel1 fuel2 : nat) (d1 d2 : Decoded C) :
  monitor_parse fuel1 w r = Some d1 -> monitor_parse fuel2 w r = Some d2 -> d1 = d2.
Proof.
  intros H1 H2.
  apply monitor_parse_more_fuel with (more := fuel2) in H1.
  apply monitor_parse_more_fuel with (more := fuel1) in H2.
  rewrite Nat.add_comm in H2. congruence.
Qed.

(** The unix loop never adds one half of a rename. *)
Lemma unix_record_never_renames (w : WatchTarget C) (e : inotify_event C)
    (parsed : list (Info C)) :
  forallb not_a_rename parsed = true ->
  forallb not_a_rename (unix_record w e parsed) = true.
Proof.
  intros Hp. unfold unix_record.
  repeat match goal with
         | |- context [if ?b then _ else _] => destruct b
         end; try exact Hp;
    rewrite forallb_app, Hp; reflexivity.
Qed.

Lemma unix_decode_never_renames (w : WatchTarget C) (buffer : Z -> inotify_event C)
    (length : Z) :
  forall fuel i parsed,
    forallb not_a_rename parsed = true ->
    match unix_decode fuel w buffer length i parsed with
    | Some (Batch l) => forallb not_a_rename l = true
    | _ => True
    end.
Proof.
  induction fuel as [|fuel IH]; intros i parsed Hp; [exact I|].
  cbn [unix_decode].
  destruct (i <? length); [|exact Hp].
  destruct (i <? 0); [exact I|].
  apply IH. now apply unix_record_never_renames.
Qed.

(** C9 (as amended).  Both loops advance by the length field of the
    record just read: [event_size + len] on unix, [NextEntryOffset] on
    Windows.  On unix a record with [len] zero adds nothing and the loop
    goes on: every record of a read that fits the buffer is decoded.  On
    Windows the first record with [NextEntryOffset] zero is decoded and
    ends the batch, whatever else the buffer holds. *)
Theorem records_are_framed_by_their_length (w : WatchTarget C) (fuel : nat) :
  (forall buffer events,
      holds_events buffer 0 events ->
      inotify_length events <= _buffer_size ->
      (List.length events < fuel)%nat ->
      unix_decode fuel w buffer (inotify_length events) 0 []
      = Some (Batch (unix_records w events []))) /\
  (forall before z after parsed,
      len z = 0 ->
      unix_records w (before ++ z :: after) parsed
      = unix_records w after (unix_records w before parsed)) /\
  (forall buffer records final,
      holds_chain buffer 0 records final ->
      (List.length records < fuel)%nat ->
      win_decode fuel w buffer 0 [] = Some (win_records w (records ++ [final]) [])).
Proof.
  split; [|split].
  - intros buffer events Hev Hlen Hfuel. unfold _buffer_size in Hlen.
    apply unix_decode_events; try assumption; lia.
  - intros before z after parsed Hz. unfold unix_records.
    rewrite fold_left_app. simpl. now rewrite unix_record_zero_length.
  - intros buffer records final Hch Hfuel. now apply win_decode_chain.
Qed.

End MonitorFacts.

Lemma records_are_framed_by_their_length_witness :
  unix_decode 3 directory_watch
    (inotify_buffer [queue_overflow; inotify_about IN_CREATE "a.txt"] 0) 48 0 []
    = Some (Batch [(str "a.txt", added)]) /\
  win_decode 3 directory_watch (directory_buffer directory_rename) 0 []
    = Some (Batch [(str "a.txt", renamed_old); (str "b.txt", renamed_new)]).
Proof.
  destruct (records_are_framed_by_their_length directory_watch 3) as (Hu & _ & Hw).
  split.
  - apply (Hu (inotify_buffer [queue_overflow; inotify_about IN_CREATE "a.txt"] 0)
              [queue_overflow; inotify_about IN_CREATE "a.txt"]).
    + simpl. repeat split; discriminate.
    + discriminate.
    + simpl. lia.
  - apply (Hw (directory_buffer directory_rename)
              [information_about 24 FILE_ACTION_RENAMED_OLD_NAME "a.txt"]
              (information_about 0 FILE_ACTION_RENAMED_NEW_NAME "b.txt")).
    + simpl. repeat split; (reflexivity || discriminate).
    + simpl. lia.
Defined.

(** C9 as it is stated fails on unix: a record with [len] zero does not
    end the batch.  After the nameless overflow record, the creation of
    [a.txt] is still decoded. *)
Lemma zero_length_record_does_not_end_the_batch :
  ~ (forall (w : WatchTarget ascii) (before after : list (inotify_event ascii))
            (z : inotify_event ascii) (fuel : nat) (parsed : list (Info ascii)),
        len z = 0%Z ->
        unix_decode fuel w (inotify_buffer (before ++ z :: after) 0)
          (inotify_length (before ++ z :: after)) 0 [] = Some (Batch parsed) ->
        parsed = unix_records w before []).
Proof.
  intros Hclaim.
  specialize (Hclaim directory_watch [] [inotify_about IN_CREATE "a.txt"] queue_overflow
                     3%nat [(str "a.txt", added)] eq_refl eq_refl).
  discriminate Hclaim.
Qed.

(** C3.  On Windows a record whose action code is not a key of
    [_event_type_mapping] is not skipped: [at] throws, the exception
    leaves the monitor thread, and the record after it is never decoded.
    The unix loop does skip a record none of whose bits it tests, and
    decodes the next one. *)
Theorem unmapped_action_code_throws_on_windows :
  map_at _event_type_mapping FILE_ACTION_ADDED_STREAM = None /\
  win_decode 3 directory_watch
    (directory_buffer [ (0%Z, information_about 24 FILE_ACTION_ADDED_STREAM "a.txt");
                        (24%Z, information_about 0 FILE_ACTION_ADDED "b.txt") ]) 0 []
    = Some out_of_range /\
  unix_decode 3 directory_watch
    (inotify_buffer [inotify_about IN_MOVED_FROM "a.txt"; inotify_about IN_CREATE "b.txt"] 0)
    64 0 []
    = Some (Batch [(str "b.txt", added)]).
Proof. repeat split; reflexivity. Qed.

(** C8.  For the rename of [a.txt] to [b.txt] in a watched directory the
    Windows loop parses [("a.txt", renamed_old)] then [("b.txt", renamed_new)]
    and the callback is called with exactly these two.  On unix the mask
    given to [inotify_add_watch] has neither [IN_MOVED_FROM] nor
    [IN_MOVED_TO], so the kernel queues nothing; and the loop would parse
    nothing from the two events even if it were handed them: whatever it
    reads, it never adds [renamed_old] or [renamed_new]. *)
Theorem rename_reaches_the_callback_on_windows_only :
  win_decode 3 directory_watch (directory_buffer directory_rename) 0 []
    = Some (Batch [(str "a.txt", renamed_old); (str "b.txt", renamed_new)]) /\
  for_loop {| platform := Win32; target := directory_watch;
              _callback := Some (fun _ _ _ => returns) |} []
           [(str "a.txt", renamed_old); (str "b.txt", renamed_new)]
    = ([(str "a.txt", renamed_old); (str "b.txt", renamed_new)], None) /\
  filter (inotify_queues unix_listen_filters) inotify_rename = [] /\
  unix_decode 3 directory_watch (inotify_buffer inotify_rename 0)
    (inotify_length inotify_rename) 0 [] = Some (Batch []) /\
  (forall fuel (w : WatchTarget ascii) buffer length,
      match unix_decode fuel w buffer length 0 [] with
      | Some (Batch l) => forallb not_a_rename l = true
      | _ => True
      end).
Proof.
  repeat split; try reflexivity.
  intros fuel w buffer length. now apply unix_decode_never_renames.
Qed.

Section SessionFacts.
Context {C : Type} `{CharType C}.
Variable w : FileWatch C.

(** *** What [visit] changes *)

Lemma visit_dispatcher (s : Session C) file rest :
  dispatcher (visit w s file rest)
  = if snd (for_body w (calls s) file) then terminated rest else in_for rest.
Proof. unfold visit. destruct (for_body w (calls s) file). reflexivity. Qed.

(** *** Invariants of every execution *)

(** Nothing is lost or reordered on the way through the queue: what the
    monitor inserted is what has been visited, then what is swapped out,
    then what is still queued. *)
Lemma decoded_is_partitioned (s : Session C) :
  reachable w s ->
  decoded s = visited s ++ in_flight s ++ _callback_information s.
Proof.
  induction 1 as [|s s' Hr IH Hstep]; [reflexivity|].
  destruct Hstep as [Hd ?|Hd ?|Hd|Hd ?|Hd ?|Hd ?|Hd ?|Hd|Hd|file rest Hd|Hd
                    |fuel r parsed ? Hl ? ?| |Hx|Hx ? Hd];
    unfold in_flight in *; try rewrite Hd in IH; simpl in *; try rewrite Hd;
    try exact IH.
  - rewrite app_nil_r. exact IH.
  - destruct (snd (for_body w (calls s) file)); simpl;
      rewrite IH, <- app_assoc; reflexivity.
  - rewrite IH, <- !app_assoc. reflexivity.
Qed.

(** What the monitor inserted is, read after read, what it parsed from
    what it read. *)
Lemma decoded_from_reads (s : Session C) :
  reachable w s ->
  exists batches, Forall2 (parsed_from w) (reads s) batches /\ decoded s = List.concat batches.
Proof.
  induction 1 as [|s s' Hr IH Hstep].
  - exists []. split; [constructor|reflexivity].
  - destruct IH as (batches & Hb & Hd).
    destruct Hstep as [Hd' ?|Hd' ?|Hd'|Hd' ?|Hd' ?|Hd' ?|Hd' ?|Hd'|Hd'|file rest Hd'|Hd'
                      |fuel r parsed ? Hl ? Hp| |Hx|Hx ? Hd'];
      try (exists batches; split; assumption).
    exists (batches ++ [parsed]). simpl. split.
    + apply Forall2_app; [exact Hb|]. constructor; [|constructor].
      exists fuel. exact Hp.
    + rewrite List.concat_app, Hd. simpl. now rewrite app_nil_r.
Qed.

Lemma for_body_calls (l : list (Info C)) (file : Info C) :
  fst (for_body w l file) = match _callback w with Some _ => l ++ [file] | None => l end.
Proof. unfold for_body. destruct (_callback w); reflexivity. Qed.

(** The callback, when there is one, has been called with exactly the
    pairs the loop visited, in that order; an empty one never. *)
Lemma calls_are_the_visited (s : Session C) :
  reachable w s ->
  calls s = match _callback w with Some _ => visited s | None => [] end.
Proof.
  induction 1 as [|s s' Hr IH Hstep].
  - simpl. destruct (_callback w); reflexivity.
  - destruct Hstep; simpl; try exact IH.
    rewrite for_body_calls, IH.
    destruct (_callback w); reflexivity.
Qed.

(** The thread leaves its loop only with the flag set, and the flag is
    never cleared. *)
Lemma exited_after_destory (s : Session C) :
  reachable w s -> dispatcher s = exited -> _destory s = true.
Proof.
  induction 1 as [|s s' Hr IH Hstep]; [discriminate|].
  destruct Hstep as [Hd ?|Hd ?|Hd|Hd ?|Hd ?|Hd ?|Hd ?|Hd|Hd|file rest Hd|Hd
                    |fuel r parsed ? Hl ? ?| |Hx|Hx ? Hd];
    simpl; try discriminate; try assumption; try reflexivity.
  - intros _. assumption.
  - destruct (snd _); discriminate.
Qed.

(** A thread that has left its loop does nothing more. *)
Lemma exited_is_final (s s' : Session C) :
  dispatcher s = exited -> step w s s' ->
  dispatcher s' = exited /\ visited s' = visited s /\ calls s' = calls s.
Proof.
  intros Hd Hstep.
  destruct Hstep as [Hd' ?|Hd' ?|Hd'|Hd' ?|Hd' ?|Hd' ?|Hd' ?|Hd'|Hd'|file rest Hd'|Hd'
                    |fuel r parsed ? Hl ? Hp| |Hx|Hx ? Hd'];
    try congruence; simpl; now repeat split.
Qed.

(** The destructor returns only after the callback thread has left. *)
Lemma returned_after_exited (s : Session C) :
  reachable w s -> destructor s = returned ->
  dispatcher s = exited /\ watch_thread_running s = false.
Proof.
  induction 1 as [|s s' Hr IH Hstep]; [discriminate|].
  destruct Hstep as [Hd ?|Hd ?|Hd|Hd ?|Hd ?|Hd ?|Hd ?|Hd|Hd|file rest Hd|Hd
                    |fuel r parsed ? Hl ? ?| |Hx|Hx ? Hd];
    simpl; intros Hret; try discriminate;
    try (destruct (IH Hret) as [IHd IHw]; congruence);
    try (split; congruence).
Qed.

Lemma for_body_escapes (l : list (Info C)) (file : Info C) :
  snd (for_body w l file) = true ->
  exists callback, _callback w = Some callback /\
                   callback l (fst file) (snd file) = throws_other.
Proof.
  unfold for_body. destruct (_callback w) as [callback|]; simpl; [|discriminate].
  intros Hs. exists callback. split; [reflexivity|].
  destruct (callback l (fst file) (snd file)); congruence.
Qed.

(** An exception leaves the thread only if the callback threw something
    that is not a [std::exception]. *)
Lemma terminated_by_other (s : Session C) rest :
  reachable w s -> dispatcher s = terminated rest ->
  exists callback l f e, _callback w = Some callback /\ callback l f e = throws_other.
Proof.
  induction 1 as [|s s' Hr IH Hstep]; [discriminate|].
  destruct Hstep as [Hd ?|Hd ?|Hd|Hd ?|Hd ?|Hd ?|Hd ?|Hd|Hd|file rest' Hd|Hd
                    |fuel r parsed ? Hl ? ?| |Hx|Hx ? Hd];
    simpl; try discriminate; try assumption.
  destruct (snd (for_body w (calls s) file)) eqn:Hesc; [|discriminate].
  intros _. apply for_body_escapes in Hesc as (callback & Hc & Ho).
  exists callback, (calls s), (fst file), (snd file). split; assumption.
Qed.

End SessionFacts.

(** *** The two example executions are executions *)

Lemma read_of_a (callback : option (Callback ascii)) :
  monitor_parse 2 (target (session_with callback))
    (read_of [inotify_about IN_CREATE "a.txt"]) = Some (Batch [a_added]).
Proof. reflexivity. Qed.

Lemma read_of_b (callback : option (Callback ascii)) :
  monitor_parse 2 (target (session_with callback))
    (read_of [inotify_about IN_CREATE "b.txt"]) = Some (Batch [b_added]).
Proof. reflexivity. Qed.

Lemma read_of_a_b (callback : option (Callback ascii)) :
  monitor_parse 3 (target (session_with callback))
    (read_of [inotify_about IN_CREATE "a.txt"; inotify_about IN_CREATE "b.txt"])
  = Some (Batch [a_added; b_added]).
Proof. reflexivity. Qed.

Lemma first_call_run_reachable (callback : option (Callback ascii)) :
  reachable (session_with callback) (first_call_run (session_with callback)).
Proof.
  set (w := session_with callback). unfold first_call_run.
  eapply reach_step; [|apply for_next; reflexivity].
  eapply reach_step; [|apply swap; reflexivity].
  eapply reach_step; [|apply if_else; reflexivity].
  eapply reach_step; [|apply lock; reflexivity].
  eapply reach_step; [|apply while_true; reflexivity].
  eapply reach_step; [apply reach_constructed|].
  eapply publish; [reflexivity|reflexivity| |apply read_of_a_b]. reflexivity.
Qed.

Lemma late_event_run_reachable (callback : option (Callback ascii)) :
  snd (for_body (session_with callback) [] a_added) = false ->
  reachable (session_with callback) (late_event_run (session_with callback)).
Proof.
  intros Hcaught. set (w := session_with callback) in *. unfold late_event_run.
  assert (Hv : forall s0 : Session ascii,
             calls s0 = [] -> dispatcher (visit w s0 a_added []) = in_for []).
  { intros s0 Hs0. rewrite visit_dispatcher, Hs0, Hcaught. reflexivity. }
  eapply reach_step; [|apply destructor_returns; reflexivity].
  eapply reach_step; [|apply monitor_leaves; reflexivity].
  eapply reach_step; [|apply while_false; reflexivity].
  eapply reach_step; [|apply for_end; apply Hv; reflexivity].
  eapply reach_step; [|apply for_next; reflexivity].
  eapply reach_step; [|apply destructor_called; reflexivity].
  eapply reach_step; [|eapply publish; [reflexivity|reflexivity| |apply read_of_b]; reflexivity].
  eapply reach_step; [|apply swap; reflexivity].
  eapply reach_step; [|apply if_else; reflexivity].
  eapply reach_step; [|apply lock; reflexivity].
  eapply reach_step; [|apply while_true; reflexivity].
  eapply reach_step; [apply reach_constructed|].
  eapply publish; [reflexivity|reflexivity| |apply read_of_a]. reflexivity.
Qed.

Section DispatchFacts.
Context {C : Type} `{CharType C}.
Variable w : FileWatch C.

Lemma for_loop_caught (callback : Callback C) :
  _callback w = Some callback ->
  (forall l f e, callback l f e <> throws_other) ->
  forall batch l, for_loop w l batch = (l ++ batch, None).
Proof.
  intros Hc Hstd. induction batch as [|file rest IH]; intros l; simpl.
  - now rewrite app_nil_r.
  - unfold for_body. rewrite Hc.
    destruct (callback l (fst file) (snd file)) eqn:Ho;
      try (rewrite IH, <- app_assoc; reflexivity).
    now apply Hstd in Ho.
Qed.

Lemma for_loop_empty_callback :
  _callback w = None -> forall batch l, for_loop w l batch = (l, None).
Proof.
  intros Hc. induction batch as [|file rest IH]; intros l; simpl; [reflexivity|].
  unfold for_body. rewrite Hc. apply IH.
Qed.

(** Left alone, the callback thread goes through a swapped-out batch as
    [for_loop] says. *)
Lemma for_loop_is_run :
  forall batch (s : Session C),
    dispatcher s = in_for batch ->
    exists s',
      steps w s s' /\
      calls s' = fst (for_loop w (calls s) batch) /\
      dispatcher s' = match snd (for_loop w (calls s) batch) with
                      | None => in_for []
                      | Some rest => terminated rest
                      end.
Proof.
  induction batch as [|file rest IH]; intros s Hd.
  - exists s. simpl. repeat split; [constructor | exact Hd].
  - pose proof (for_next w s file rest Hd) as Hstep.
    cbn [for_loop]. destruct (for_body w (calls s) file) as [calls' escaped] eqn:Hb.
    assert (Hc1 : calls (visit w s file rest) = calls')
      by (unfold visit; rewrite Hb; reflexivity).
    destruct escaped.
    + exists (visit w s file rest). repeat split.
      * eapply steps_more; [exact Hstep | constructor].
      * exact Hc1.
      * unfold visit. rewrite Hb. reflexivity.
    + destruct (IH (visit w s file rest)) as (s' & Hs & Hc & Hdd).
      { unfold visit. rewrite Hb. reflexivity. }
      rewrite Hc1 in Hc, Hdd.
      exists s'. repeat split; [|exact Hc|exact Hdd].
      eapply steps_more; [exact Hstep | exact Hs].
Qed.

Lemma unix_records_from (events : list (inotify_event C)) :
  forall parsed,
    unix_records (target w) events parsed
    = parsed ++ flat_map (fun e => unix_record (target w) e []) events.
Proof.
  assert (Hone : forall e parsed,
             unix_record (target w) e parsed = parsed ++ unix_record (target w) e []).
  { intros e parsed. unfold unix_record.
    repeat match goal with
           | |- context [if ?b then _ else _] => destruct b
           end; simpl; now rewrite ?app_nil_r. }
  unfold unix_records. induction events as [|e rest IH]; intros parsed; simpl.
  - now rewrite app_nil_r.
  - rewrite IH, (Hone e parsed), <- app_assoc. reflexivity.
Qed.

(** C1 (as amended).  When everything the callback throws is derived
    from [std::exception], a failure is caught and discarded where the
    call is made: the range-[for] calls the callback for every pair of
    the batch, in order, whatever the earlier calls did; the thread gets
    from any point of a batch to its end; and in no execution does an
    exception leave the callback thread. *)
Theorem std_exceptions_are_caught_and_discarded (callback : Callback C) :
  _callback w = Some callback ->
  (forall l f e, callback l f e <> throws_other) ->
  (forall batch l, for_loop w l batch = (l ++ batch, None)) /\
  (forall batch s, dispatcher s = in_for batch ->
                   exists s', steps w s s' /\ calls s' = calls s ++ batch /\
                              dispatcher s' = in_for []) /\
  (forall s, reachable w s ->
             (forall rest, dispatcher s <> terminated rest) /\ calls s = visited s).
Proof.
  intros Hc Hstd. split; [|split].
  - exact (for_loop_caught callback Hc Hstd).
  - intros batch s Hd. destruct (for_loop_is_run batch s Hd) as (s' & Hs & Hcs & Hds).
    rewrite (for_loop_caught callback Hc Hstd) in Hcs, Hds. now exists s'.
  - intros s Hr. split.
    + intros rest Hd.
      destruct (terminated_by_other w s rest Hr Hd) as (cb & l & f & e & Hcb & Ho).
      rewrite Hc in Hcb. injection Hcb as <-. now apply Hstd in Ho.
    + rewrite (calls_are_the_visited w s Hr), Hc. reflexivity.
Qed.

(** C2 (as amended).  The callback thread leaves its loop only with the
    shutdown flag set; the queue may hold pairs at that point.  What it
    had swapped out has then been gone through to the end; what the
    monitor inserted after the last swap stays in the queue, and no later
    action hands it to the callback.  The destructor returns only after
    the thread has left. *)
Theorem loop_exits_only_after_shutdown (s : Session C) :
  reachable w s ->
  (dispatcher s = exited ->
   _destory s = true /\ decoded s = visited s ++ _callback_information s) /\
  (dispatcher s = exited ->
   forall s', step w s s' ->
              dispatcher s' = exited /\ visited s' = visited s /\ calls s' = calls s) /\
  (destructor s = returned -> dispatcher s = exited).
Proof.
  intros Hr. split; [|split].
  - intros Hd. split; [exact (exited_after_destory w s Hr Hd)|].
    rewrite (decoded_is_partitioned w s Hr). unfold in_flight. rewrite Hd. reflexivity.
  - intros Hd s' Hstep.
    exact (exited_is_final w s s' Hd Hstep).
  - intros Hret. now apply (returned_after_exited w s Hr).
Qed.

(** C7.  In every execution, the batches parsed from the reads, taken
    read after read, are in this order: the pairs the callback has been
    called with, those swapped out and not yet visited, those still
    queued.  So the callback is called in the order of decoding: insert
    at the end, swap and range-[for] reorder nothing.  Within one read the
    unix loop adds the pairs in the order of the records. *)
Theorem callbacks_follow_the_order_of_decoding (callback : Callback C) (s : Session C) :
  _callback w = Some callback ->
  reachable w s ->
  (exists batches,
      Forall2 (parsed_from w) (reads s) batches /\
      List.concat batches = calls s ++ in_flight s ++ _callback_information s) /\
  (forall events parsed,
      unix_records (target w) events parsed
      = parsed ++ flat_map (fun e => unix_record (target w) e []) events).
Proof.
  intros Hc Hr. split.
  - destruct (decoded_from_reads w s Hr) as (batches & Hb & Hd).
    exists batches. split; [exact Hb|].
    rewrite <- Hd, (calls_are_the_visited w s Hr), Hc.
    exact (decoded_is_partitioned w s Hr).
  - intros events parsed. apply unix_records_from.
Qed.

(** C10.  With an empty [std::function] the test [if (_callback)] fails
    for every pair: the range-[for] goes through the batch without a
    call, the thread gets from any point of a batch to its end, no
    exception arises, and every execution goes on as with a callback, the
    pairs being dropped. *)
Theorem empty_callback_drops_every_event :
  _callback w = None ->
  (forall batch l, for_loop w l batch = (l, None)) /\
  (forall batch s, dispatcher s = in_for batch ->
                   exists s', steps w s s' /\ calls s' = calls s /\
                              dispatcher s' = in_for []) /\
  (forall s, reachable w s ->
             calls s = [] /\
             (forall rest, dispatcher s <> terminated rest) /\
             decoded s = visited s ++ in_flight s ++ _callback_information s).
Proof.
  intros Hc. split; [now apply for_loop_empty_callback|]. split.
  { intros batch s Hd. destruct (for_loop_is_run batch s Hd) as (s' & Hs & Hcs & Hds).
    rewrite (for_loop_empty_callback Hc) in Hcs, Hds. now exists s'. }
  intros s Hr. repeat split.
  - rewrite (calls_are_the_visited w s Hr), Hc. reflexivity.
  - intros rest Hd.
    destruct (terminated_by_other w s rest Hr Hd) as (cb & l & f & e & Hcb & _).
    congruence.
  - exact (decoded_is_partitioned w s Hr).
Qed.

End DispatchFacts.

Lemma std_exceptions_are_caught_and_discarded_witness :
  for_loop throwing_runtime_error [] [a_added; b_added] = ([a_added; b_added], None) /\
  calls (late_event_run throwing_runtime_error)
    = visited (late_event_run throwing_runtime_error).
Proof.
  destruct (std_exceptions_are_caught_and_discarded throwing_runtime_error
              (fun _ _ _ => throws_std_exception) eq_refl
              (fun _ _ _ Hthrow => eq_ind throws_std_exception
                 (fun o => match o with throws_std_exception => True | _ => False end)
                 I throws_other Hthrow)) as (Hloop & _ & Hrun).
  split.
  - exact (Hloop [a_added; b_added] []).
  - exact (proj2 (Hrun _ (late_event_run_reachable
                            (Some (fun _ _ _ => throws_std_exception)) eq_refl))).
Defined.

(** C1 as it is stated fails: the handler is [catch (const std::exception&)].
    A callback that throws an [int] is called for [a.txt]; the exception
    leaves the thread function and [b.txt], of the same batch, is never
    handed to the callback. *)
Lemma other_exceptions_leave_the_thread :
  for_loop throwing_int [] [a_added; b_added] = ([a_added], Some [b_added]) /\
  reachable throwing_int (first_call_run throwing_int) /\
  dispatcher (first_call_run throwing_int) = terminated [b_added] /\
  calls (first_call_run throwing_int) = [a_added].
Proof.
  repeat split; try reflexivity.
  apply (first_call_run_reachable (Some (fun _ _ _ => throws_other))).
Qed.

Lemma loop_exits_only_after_shutdown_witness :
  _destory (late_event_run well_behaved) = true /\
  decoded (late_event_run well_behaved)
    = visited (late_event_run well_behaved)
      ++ _callback_information (late_event_run well_behaved).
Proof.
  exact (proj1 (loop_exits_only_after_shutdown well_behaved (late_event_run well_behaved)
                  (late_event_run_reachable (Some (fun _ _ _ => returns)) eq_refl)) eq_refl).
Defined.

(** C2 as it is stated fails.  [b.txt] is inserted while the callback
    thread is in its range-[for]; the destructor sets the flag; the
    thread finishes the batch, finds the flag set at the [while] and
    leaves.  The destructor returns with [b.txt] still queued and the
    callback called for [a.txt] only. *)
Lemma queued_events_are_left_at_teardown :
  reachable well_behaved (late_event_run well_behaved) /\
  late_event_run well_behaved
  = {| _destory := true; _callback_information := [b_added];
       dispatcher := exited; watch_thread_running := false; destructor := returned;
       reads := [read_of [inotify_about IN_CREATE "a.txt"];
                 read_of [inotify_about IN_CREATE "b.txt"]];
       decoded := [a_added; b_added]; visited := [a_added]; calls := [a_added] |}.
Proof.
  split; [apply (late_event_run_reachable (Some (fun _ _ _ => returns)))|]; reflexivity.
Qed.

Lemma callbacks_follow_the_order_of_decoding_witness :
  exists batches,
    Forall2 (parsed_from well_behaved) (reads (first_call_run well_behaved)) batches /\
    List.concat batches
    = calls (first_call_run well_behaved) ++ in_flight (first_call_run well_behaved)
      ++ _callback_information (first_call_run well_behaved).
Proof.
  exact (proj1 (callbacks_follow_the_order_of_decoding well_behaved
                  (fun _ _ _ => returns) (first_call_run well_behaved)
                  eq_refl (first_call_run_reachable (Some (fun _ _ _ => returns))))).
Defined.

Lemma empty_callback_drops_every_event_witness :
  for_loop without_callback [] [a_added; b_added] = ([], None) /\
  calls (late_event_run without_callback) = [].
Proof.
  destruct (empty_callback_drops_every_event without_callback eq_refl)
    as (Hloop & _ & Hrun).
  split.
  - exact (Hloop [a_added; b_added] []).
  - exact (proj1 (Hrun _ (late_event_run_reachable None eq_refl))).
Defined.

Section ConstructionFacts.
Context {C : Type} `{CharType C}.
Local Open Scope Z_scope.

(** Whatever fails, no thread has been started. *)
Lemma failed_construction_starts_no_thread
    (uos : unix_calls C) (wos : win_calls C) (path : list C)
    (callback : option (Callback C)) (held : list Held) :
  unix_construct uos path callback = (held, system_error) \/
  win_construct wos path callback = (held, system_error) ->
  forallb (fun h => negb (is_thread h)) held = true.
Proof.
  unfold unix_construct, unix_get_directory, is_file,
         win_construct, win_get_directory. intros [Hc | Hc].
  - destruct (inotify_init uos <? 0); [injection Hc as <-; reflexivity|].
    destruct (stat uos path) as [single|]; [|injection Hc as <-; reflexivity].
    destruct (inotify_add_watch uos _ _ _ <? 0); [injection Hc as <-; reflexivity|].
    discriminate.
  - destruct (GetFileAttributes wos path =? INVALID_FILE_ATTRIBUTES);
      [injection Hc as <-; reflexivity|].
    destruct (CreateFile wos _ =? INVALID_HANDLE_VALUE);
      [injection Hc as <-; reflexivity|].
    destruct (CreateEvent wos =? 0); [injection Hc as <-; reflexivity|discriminate].
Qed.

(** On unix the descriptor of [inotify_init] is open when [is_file] or
    [inotify_add_watch] makes [get_directory] throw, and nothing closes it. *)
Lemma failed_unix_construction_holds_the_descriptor
    (os : unix_calls C) (path : list C) (callback : option (Callback C))
    (held : list Held) :
  0 <= inotify_init os ->
  unix_construct os path callback = (held, system_error) ->
  held = [descriptor (inotify_init os)].
Proof.
  intros Hfd. unfold unix_construct, unix_get_directory, is_file.
  replace (inotify_init os <? 0) with false by (symmetry; apply Z.ltb_ge; exact Hfd).
  destruct (stat os path) as [single|]; [|intros Hc; injection Hc as <-; reflexivity].
  destruct (inotify_add_watch os _ _ _ <? 0); [|discriminate].
  intros Hc; injection Hc as <-; reflexivity.
Qed.

(** On Windows nothing is held when [get_directory] throws: the
    attributes are read before anything is opened. *)
Lemma failed_win_get_directory_holds_nothing
    (os : win_calls C) (path : list C) (held : list Held) :
  win_get_directory os [] path = (held, system_error) -> held = [].
Proof.
  unfold win_get_directory.
  destruct (GetFileAttributes os path =? INVALID_FILE_ATTRIBUTES);
    [intros Hc; injection Hc as <-; reflexivity|].
  destruct (CreateFile os _ =? INVALID_HANDLE_VALUE); [|discriminate].
  intros Hc; injection Hc as <-; reflexivity.
Qed.

End ConstructionFacts.

(** C4.  On unix a failed construction starts no thread but keeps the
    inotify descriptor: [get_directory] opens it first, and neither the
    failure of [stat] nor that of [inotify_add_watch] closes it before the
    [throw].  On Windows both failures leave nothing held. *)
Theorem failed_unix_construction_leaks_the_descriptor :
  unix_construct stat_fails (str "/tmp/missing") (_callback well_behaved)
    = ([descriptor 3], system_error) /\
  unix_construct add_watch_fails (str "/tmp/w") (_callback well_behaved)
    = ([descriptor 3], system_error) /\
  win_construct attributes_fail (str "C:/missing") (_callback well_behaved)
    = ([], system_error) /\
  win_construct create_file_fails (str "C:/w") (_callback well_behaved)
    = ([], system_error).
Proof. repeat split; reflexivity. Qed.

(* ================================================================== *)
(** * Further properties of the code *)

Section PathResolverMore.
Context {C : Type} `{CharType C}.

Lemma split_with_separator (p : Platform) (pre post : list C) (sep : C) :
  predict p sep = true ->
  (forall c, In c post -> predict p c = false) ->
  split_directory_and_file p (pre ++ sep :: post)
  = {| directory := pre ++ [sep]; filename := post |}.
Proof.
  intros Hsep Hpost. unfold split_directory_and_file.
  rewrite (pivot_after_last p pre post sep Hsep Hpost).
  replace (S (List.length pre)) with (List.length (pre ++ [sep]))
    by (rewrite length_app; simpl; lia).
  change (sep :: post) with ([sep] ++ post). rewrite app_assoc.
  rewrite firstn_app, skipn_app, Nat.sub_diag, firstn_all, skipn_all.
  simpl. rewrite app_nil_r.
  destruct (pre ++ [sep]) eqn:E; [destruct pre; discriminate|reflexivity].
Qed.

Lemma split_without_separator (p : Platform) (path : list C) :
  (forall c, In c path -> predict p c = false) ->
  split_directory_and_file p path = {| directory := lit "./"; filename := path |}.
Proof.
  intros Hno. unfold split_directory_and_file.
  rewrite (pivot_none p path Hno). reflexivity.
Qed.

Lemma slash_is_a_separator (p : Platform) : predict p (ch_lit "/"%char) = true.
Proof.
  destruct p; simpl; rewrite (proj2 (ch_eqb_eq _ _) eq_refl);
    [apply orb_true_r | reflexivity].
Qed.

Lemma existsb_none (pred : C -> bool) (l : list C) :
  (forall c, In c l -> pred c = false) -> existsb pred l = false.
Proof.
  induction l as [|x l IH]; simpl; intros Hno; [reflexivity|].
  rewrite (Hno x) by now left. apply IH. intros c Hc. apply Hno. now right.
Qed.

Lemma filename_without_separator (p : Platform) (path : list C) :
  forall c, In c (filename (split_directory_and_file p path)) -> predict p c = false.
Proof.
  destruct (last_separator p path) as [Hno | (pre & sep & post & -> & Hsep & Hpost)].
  - now rewrite (split_without_separator p path Hno).
  - now rewrite (split_with_separator p pre post sep Hsep Hpost).
Qed.

(** X1.  What [split_directory_and_file] returns fits together again:
    the file name has no separator in it, the directory ends in a
    separator, and directory followed by file name is the path itself
    when the path has a separator and ["./"] followed by the path when it
    has none. *)
Theorem split_directory_and_file_reassembles (p : Platform) (path : list C) :
  (forall c, In c (filename (split_directory_and_file p path)) -> predict p c = false) /\
  (exists d sep, directory (split_directory_and_file p path) = d ++ [sep] /\
                 predict p sep = true) /\
  directory (split_directory_and_file p path) ++ filename (split_directory_and_file p path)
  = if existsb (predict p) path then path else lit "./" ++ path.
Proof.
  destruct (last_separator p path) as [Hno | (pre & sep & post & -> & Hsep & Hpost)].
  - rewrite (split_without_separator p path Hno), (existsb_none _ _ Hno). simpl.
    repeat split; [exact Hno|].
    exists [ch_lit "."%char], (ch_lit "/"%char). split; [reflexivity|].
    apply slash_is_a_separator.
  - rewrite (split_with_separator p pre post sep Hsep Hpost). simpl.
    repeat split; [exact Hpost|exists pre, sep; now split|].
    rewrite existsb_app. simpl. rewrite Hsep, orb_true_r.
    now rewrite <- app_assoc.
Qed.

(** X2.  The filter looks at the last component of a name only: a name
    passes exactly when its file name part passes, whatever directories
    precede it. *)
Theorem pass_filter_last_component (p : Platform) (w : WatchTarget C) (file_path : list C) :
  pass_filter p w file_path
  = pass_filter p w (filename (split_directory_and_file p file_path)) /\
  (forall dir sep,
      predict p sep = true ->
      (forall c, In c file_path -> predict p c = false) ->
      pass_filter p w (dir ++ sep :: file_path) = pass_filter p w file_path).
Proof.
  assert (Hidem : forall path,
             filename (split_directory_and_file p
                         (filename (split_directory_and_file p path)))
             = filename (split_directory_and_file p path)).
  { intros path.
    now rewrite (split_without_separator p _ (filename_without_separator p path)). }
  split.
  - unfold pass_filter. destruct (_watching_single_file w); [|reflexivity].
    now rewrite Hidem.
  - intros dir sep Hsep Hno. unfold pass_filter.
    destruct (_watching_single_file w); [|reflexivity].
    rewrite (split_with_separator p dir file_path sep Hsep Hno).
    now rewrite (split_without_separator p file_path Hno).
Qed.

End PathResolverMore.

Lemma pass_filter_last_component_witness :
  pass_filter Win32 file_watch (str "sub" ++ backslash :: str "x.txt")
  = pass_filter Win32 file_watch (str "x.txt").
Proof.
  apply (proj2 (pass_filter_last_component Win32 file_watch (str "x.txt"))
               (str "sub") backslash).
  - reflexivity.
  - intros c Hc. simpl in Hc.
    repeat (destruct Hc as [<- | Hc]; [reflexivity|]). destruct Hc.
Defined.

Section TargetFacts.
Context {C : Type} `{CharType C}.
Local Open Scope Z_scope.

Lemma str_eqb_refl (a : list C) : str_eqb a a = true.
Proof. now apply str_eqb_eq. Qed.

(** X3.  What [get_directory] records makes the filter fit the path it
    was given.  For a regular file the file itself passes, and a name
    passes exactly when its last component is that of the path; for
    anything else every name passes.  This holds on both targets. *)
Theorem get_directory_sets_the_filter (path : list C) :
  (forall os held held' w dir,
      unix_get_directory os held path = (held', value (w, dir)) ->
      (stat os path = Some true ->
       pass_filter Unix w path = true /\
       forall name, pass_filter Unix w name = true <->
                    filename (split_directory_and_file Unix name)
                    = filename (split_directory_and_file Unix path)) /\
      (stat os path = Some false -> forall name, pass_filter Unix w name = true)) /\
  (forall os held held' w dir,
      win_get_directory os held path = (held', value (w, dir)) ->
      (Z.land (GetFileAttributes os path) FILE_ATTRIBUTE_DIRECTORY = 0 ->
       pass_filter Win32 w path = true /\
       forall name, pass_filter Win32 w name = true <->
                    filename (split_directory_and_file Win32 name)
                    = filename (split_directory_and_file Win32 path)) /\
      (Z.land (GetFileAttributes os path) FILE_ATTRIBUTE_DIRECTORY <> 0 ->
       forall name, pass_filter Win32 w name = true)).
Proof.
  split.
  - intros os held held' w dir. unfold unix_get_directory, is_file.
    destruct (inotify_init os <? 0); [discriminate|].
    destruct (stat os path) as [single|]; [|discriminate].
    destruct (inotify_add_watch os _ _ _ <? 0); [discriminate|].
    intros Hg. injection Hg as _ <- _. split.
    + intros Hs. injection Hs as ->. unfold pass_filter. simpl. split.
      * apply str_eqb_refl.
      * intros name. apply str_eqb_eq.
    + intros Hs. injection Hs as ->. reflexivity.
  - intros os held held' w dir. unfold win_get_directory.
    destruct (GetFileAttributes os path =? INVALID_FILE_ATTRIBUTES); [discriminate|].
    destruct (CreateFile os _ =? INVALID_HANDLE_VALUE); [discriminate|].
    intros Hg. injection Hg as _ <- _. split.
    + intros ->. unfold pass_filter. simpl. split.
      * apply str_eqb_refl.
      * intros name. apply str_eqb_eq.
    + intros Hd. apply Z.eqb_neq in Hd. unfold pass_filter. simpl. now rewrite Hd.
Qed.

End TargetFacts.

Lemma get_directory_sets_the_filter_witness :
  pass_filter Unix
    {| _path := str "/tmp/w/x.txt"; _watching_single_file := true;
       _filename := filename (split_directory_and_file Unix (str "/tmp/w/x.txt")) |}
    (str "/tmp/w/x.txt") = true.
Proof.
  exact (proj1 (proj1 (proj1 (get_directory_sets_the_filter (str "/tmp/w/x.txt"))
      {| inotify_init := 3; stat := fun _ => Some true;
         inotify_add_watch := fun _ _ _ => 1%Z |}
      [] _ _ _ eq_refl) eq_refl)).
Defined.

Section DecodeFacts.
Context {C : Type} `{CharType C}.
Local Open Scope Z_scope.






End DecodeFacts.

Section FilterEndToEnd.
Context {C : Type} `{CharType C}.
Variable w : FileWatch C.



End FilterEndToEnd.


Section RecordFacts.
Context {C : Type} `{CharType C}.
Local Open Scope Z_scope.

Lemma c_str_padded (file padding : list C) :
  (forall c, In c file -> ch_eqb c (ch_lit zero) = false) ->
  c_str (file ++ ch_lit zero :: padding) = file.
Proof.
  induction file as [|x file IH]; simpl; intros Hno.
  - now rewrite (proj2 (ch_eqb_eq _ _) eq_refl).
  - rewrite (Hno x) by now left. f_equal. apply IH.
    intros c Hc. apply Hno. now right.
Qed.

(** X5.  On unix every named event that has one of the bits the watch was
    registered with, and whose name passes the filter, adds exactly one
    pair: the name as the kernel wrote it, without the NUL padding, with
    [added], [removed] or [modified].  No event the watch subscribes to
    is dropped by the [if] chain. *)
Theorem subscribed_event_is_reported (w : WatchTarget C) (e : inotify_event C)
    (parsed : list (Info C)) (file padding : list C) :
  name e = file ++ ch_lit zero :: padding ->
  (forall c, In c file -> ch_eqb c (ch_lit zero) = false) ->
  len e <> 0 ->
  pass_filter Unix w file = true ->
  inotify_queues unix_listen_filters e = true ->
  exists kind,
    unix_record w e parsed = parsed ++ [(file, kind)] /\
    (kind = added \/ kind = removed \/ kind = modified).
Proof.
  intros Hname Hnul Hlen Hpass Hq. unfold unix_record.
  replace (len e =? 0) with false by (symmetry; now apply Z.eqb_neq).
  cbn [negb]. rewrite Hname, (c_str_padded file padding Hnul), Hpass.
  destruct (Z.land (mask e) IN_CREATE =? 0) eqn:Hc; cbn [negb]; [|eauto].
  destruct (Z.land (mask e) IN_DELETE =? 0) eqn:Hd; cbn [negb]; [|eauto].
  destruct (Z.land (mask e) IN_MODIFY =? 0) eqn:Hm; cbn [negb]; [|eauto].
  exfalso. apply Z.eqb_eq in Hc, Hd, Hm.
  unfold inotify_queues, unix_listen_filters in Hq.
  rewrite !Z.land_lor_distr_l in Hq.
  rewrite (Z.land_comm IN_MODIFY), (Z.land_comm IN_CREATE), (Z.land_comm IN_DELETE) in Hq.
  rewrite Hc, Hd, Hm in Hq. discriminate.
Qed.

Lemma map_at_documented (action : Z) :
  map_at _event_type_mapping action = None <-> action < 1 \/ 5 < action.
Proof.
  unfold _event_type_mapping, map_at, FILE_ACTION_ADDED, FILE_ACTION_REMOVED,
    FILE_ACTION_MODIFIED, FILE_ACTION_RENAMED_OLD_NAME, FILE_ACTION_RENAMED_NEW_NAME.
  repeat match goal with
         | |- context [?a =? ?b] => destruct (Z.eqb_spec a b)
         end; split; intros Hx; try discriminate; try lia; reflexivity.
Qed.

(** X6.  On Windows the body of the loop throws exactly for a record that
    passes the filter and whose action code is not one of the five of the
    table, 1 to 5. *)
Theorem win_record_throws_exactly (w : WatchTarget C) (r : FILE_NOTIFY_INFORMATION C)
    (parsed : list (Info C)) :
  win_record w r parsed = None <->
  pass_filter Win32 w (changed_file r) = true /\ (Action r < 1 \/ 5 < Action r).
Proof.
  unfold win_record, changed_file.
  destruct (pass_filter Win32 w _).
  - destruct (map_at _event_type_mapping (Action r)) eqn:Hm.
    + split; [discriminate|]. intros [_ Ha].
      apply map_at_documented in Ha. congruence.
    + split; [|reflexivity]. intros _. split; [reflexivity|].
      now apply map_at_documented.
  - split; [discriminate|]. intros [Hf _]. discriminate.
Qed.

Lemma win_records_documented (w : WatchTarget C) :
  forall records parsed,
    Forall (fun r => 1 <= Action r <= 5) records ->
    exists l,
      win_records w records parsed = Batch (parsed ++ l) /\
      map fst l = filter (pass_filter Win32 w) (map changed_file records) /\
      map (fun i => Some (snd i)) l
      = map (fun r => map_at _event_type_mapping (Action r))
            (filter (fun r => pass_filter Win32 w (changed_file r)) records).
Proof.
  induction records as [|r rest IH]; intros parsed Hdoc.
  - exists []. simpl. now rewrite app_nil_r.
  - inversion Hdoc as [|r' rest' Hr Hrest]; subst.
    cbn [win_records]. unfold win_record. fold (changed_file r).
    cbn [map filter].
    destruct (pass_filter Win32 w (changed_file r)) eqn:Hf.
    + destruct (map_at _event_type_mapping (Action r)) as [e|] eqn:Hm.
      * destruct (IH (parsed ++ [(changed_file r, e)]) Hrest) as (l & Hl & Hn & Hk).
        exists ((changed_file r, e) :: l). rewrite Hl, <- app_assoc.
        cbn [map fst snd app]. rewrite Hn, Hk, Hm. now repeat split.
      * apply map_at_documented in Hm. lia.
    + destruct (IH parsed Hrest) as (l & Hl & Hn & Hk). now exists l.
Qed.

(** X7.  On Windows a chain of records whose action codes are all among
    the five of the table is parsed without an exception: the batch holds
    one pair for each record whose name passes the filter, in the order of
    the chain, with the record's name and the table's event. *)
Theorem documented_chain_is_parsed (w : WatchTarget C)
    (buffer : Z -> FILE_NOTIFY_INFORMATION C)
    (records : list (FILE_NOTIFY_INFORMATION C)) (final : FILE_NOTIFY_INFORMATION C)
    (fuel : nat) :
  holds_chain buffer 0 records final ->
  Forall (fun r => 1 <= Action r <= 5) (records ++ [final]) ->
  (List.length records < fuel)%nat ->
  exists l,
    win_decode fuel w buffer 0 [] = Some (Batch l) /\
    map fst l = filter (pass_filter Win32 w) (map changed_file (records ++ [final])) /\
    map (fun i => Some (snd i)) l
    = map (fun r => map_at _event_type_mapping (Action r))
          (filter (fun r => pass_filter Win32 w (changed_file r)) (records ++ [final])).
Proof.
  intros Hch Hdoc Hfuel.
  rewrite (win_decode_chain w buffer final records fuel 0 [] Hfuel Hch).
  destruct (win_records_documented w (records ++ [final]) [] Hdoc) as (l & Hl & Hn & Hk).
  exists l. rewrite Hl. now repeat split.
Qed.


(** X9.  A record whose [len] is [2^32 - event_size] sends the cursor back
    to where it is: [i] is an [int] and [event_size + len] is [2^32].  From
    such a record on the unix loop never ends. *)
Theorem unix_decode_wraps_forever (w : WatchTarget C) (buffer : Z -> inotify_event C)
    (length i : Z) :
  0 <= i < length ->
  i < 2 ^ 31 ->
  len (buffer i) = 2 ^ 32 - event_size ->
  forall fuel parsed, unix_decode fuel w buffer length i parsed = None.
Proof.
  intros Hi Hint Hlen.
  assert (Hback : to_int (i + (event_size + len (buffer i))) = i).
  { rewrite Hlen. unfold to_int, event_size.
    replace (i + (16 + (2 ^ 32 - 16))) with (i + 1 * 2 ^ 32) by lia.
    rewrite Z.mod_add by lia. rewrite Z.mod_small by lia.
    destruct (Z.ltb_spec i (2 ^ 31)); lia. }
  induction fuel as [|fuel IH]; intros parsed; [reflexivity|].
  cbn [unix_decode].
  replace (i <? length) with true by (symmetry; apply Z.ltb_lt; lia).
  replace (i <? 0) with false by (symmetry; apply Z.ltb_ge; lia).
  rewrite Hback. apply IH.
Qed.

(** X10.  The Windows loop always ends: [NextEntryOffset] is unsigned, so
    the cursor grows as long as the loop goes on, and it stops at the
    latest when it leaves the buffer.  With more fuel than the buffer has
    bytes the pass gives a batch, the exception of [at], or an access
    outside the buffer. *)
Theorem win_decode_ends (w : WatchTarget C) (buffer : Z -> FILE_NOTIFY_INFORMATION C) :
  (forall off, 0 <= NextEntryOffset (buffer off)) ->
  forall fuel off parsed,
    _buffer_size - off <= Z.of_nat fuel ->
    exists d, win_decode (S fuel) w buffer off parsed = Some d.
Proof.
  intros Hnext. induction fuel as [|fuel IH]; intros off parsed Hfuel.
  - cbn [win_decode].
    replace ((off <? 0) || (_buffer_size <=? off))%bool with true; [eauto|].
    symmetry. apply orb_true_iff. right. apply Z.leb_le. lia.
  - cbn [win_decode]. fold (win_decode (S fuel)).
    destruct ((off <? 0) || (_buffer_size <=? off))%bool; [eauto|].
    destruct (win_record w (buffer off) parsed) as [parsed'|]; [|eauto].
    destruct (Z.eqb_spec (NextEntryOffset (buffer off)) 0) as [Hz|Hnz]; [eauto|].
    apply IH. pose proof (Hnext off). clear IH. lia.
Qed.

End RecordFacts.

Lemma subscribed_event_is_reported_witness :
  exists kind,
    unix_record directory_watch (inotify_about IN_CREATE "a.txt") []
    = [] ++ [(str "a.txt", kind)] /\
    (kind = added \/ kind = removed \/ kind = modified).
Proof.
  apply (subscribed_event_is_reported directory_watch (inotify_about IN_CREATE "a.txt") []
           (str "a.txt") (repeat zero 10)).
  - reflexivity.
  - intros c Hc. simpl in Hc.
    repeat (destruct Hc as [<- | Hc]; [reflexivity|]). destruct Hc.
  - discriminate.
  - reflexivity.
  - reflexivity.
Defined.

Lemma documented_chain_is_parsed_witness :
  exists l,
    win_decode 3 directory_watch (directory_buffer directory_rename) 0 [] = Some (Batch l) /\
    map fst l = [str "a.txt"; str "b.txt"].
Proof.
  destruct (documented_chain_is_parsed directory_watch (directory_buffer directory_rename)
              [information_about 24 FILE_ACTION_RENAMED_OLD_NAME "a.txt"]
              (information_about 0 FILE_ACTION_RENAMED_NEW_NAME "b.txt") 3)
    as (l & Hl & Hn & _).
  - simpl. repeat split; (reflexivity || discriminate).
  - repeat constructor; discriminate.
  - simpl. lia.
  - exists l. split; [exact Hl | exact Hn].
Defined.


Lemma unix_decode_wraps_forever_witness :
  unix_decode 1000 directory_watch (inotify_buffer [wrapping_event] 0) 16 0 [] = None.
Proof.
  apply (unix_decode_wraps_forever directory_watch (inotify_buffer [wrapping_event] 0) 16 0).
  - split; [discriminate | reflexivity].
  - reflexivity.
  - reflexivity.
Defined.

Lemma win_decode_ends_witness :
  exists d,
    win_decode (S (Z.to_nat _buffer_size)) directory_watch
      (directory_buffer directory_rename) 0 [] = Some d.
Proof.
  apply (win_decode_ends directory_watch (directory_buffer directory_rename)).
  - intros off. cbn [directory_buffer directory_rename].
    repeat match goal with
           | |- context [if ?b then _ else _] => destruct b
           end; discriminate.
  - rewrite Z2Nat.id by discriminate. rewrite Z.sub_0_r. apply Z.le_refl.
Defined.

Section SessionMore.
Context {C : Type} `{CharType C}.
Variable w : FileWatch C.

Lemma steps_trans (s1 s2 s3 : Session C) :
  steps w s1 s2 -> steps w s2 s3 -> steps w s1 s3.
Proof.
  induction 1 as [|s s' s'' Hstep Hsteps IH]; intros H3; [exact H3|].
  eapply steps_more; [exact Hstep | now apply IH].
Qed.

(** X11.  Once the destructor has returned, no thread of the object can
    do anything more: in particular the callback is never called after
    the destruction. *)
Theorem nothing_happens_after_destruction (s : Session C) :
  reachable w s ->
  destructor s = returned ->
  ~ (exists s', step w s s').
Proof.
  intros Hr Hret [s' Hstep].
  destruct (returned_after_exited w s Hr Hret) as [Hd Hw].
  destruct Hstep; congruence.
Qed.

(** The callback thread alone, through one swapped-out batch, leaves the
    flag and the queue as they are. *)
Lemma batch_is_run (callback : Callback C) :
  _callback w = Some callback ->
  (forall l f e, callback l f e <> throws_other) ->
  forall batch (s : Session C),
    dispatcher s = in_for batch ->
    exists s',
      steps w s s' /\ dispatcher s' = in_for [] /\ calls s' = calls s ++ batch /\
      _destory s' = _destory s /\ _callback_information s' = _callback_information s.
Proof.
  intros Hc Hstd. induction batch as [|file rest IH]; intros s Hd.
  - exists s. rewrite app_nil_r. repeat split; [constructor | exact Hd].
  - pose proof (for_next w s file rest Hd) as Hstep.
    assert (Hb : for_body w (calls s) file = (calls s ++ [file], false)).
    { unfold for_body. rewrite Hc.
      destruct (callback (calls s) (fst file) (snd file)) eqn:Ho; try reflexivity.
      now apply Hstd in Ho. }
    destruct (IH (visit w s file rest)) as (s' & Hs & Hd' & Hc' & Hf & Hq).
    { unfold visit. rewrite Hb. reflexivity. }
    exists s'. repeat split.
    + eapply steps_more; [exact Hstep | exact Hs].
    + exact Hd'.
    + rewrite Hc'. unfold visit. rewrite Hb. simpl. now rewrite <- app_assoc.
    + rewrite Hf. reflexivity.
    + rewrite Hq. reflexivity.
Qed.

Lemma drained_from_the_swap (callback : Callback C) (s : Session C) :
  _callback w = Some callback ->
  (forall l f e, callback l f e <> throws_other) ->
  _destory s = true ->
  dispatcher s = at_swap ->
  exists s',
    steps w s s' /\ dispatcher s' = exited /\
    calls s' = calls s ++ _callback_information s /\ _callback_information s' = [].
Proof.
  intros Hc Hstd Hf Hd.
  destruct (batch_is_run callback Hc Hstd (_callback_information s) (swap_out s) eq_refl)
    as (s1 & Hs1 & Hd1 & Hc1 & Hf1 & Hq1).
  exists (goto (goto s1 at_while) exited). repeat split.
  - eapply steps_more; [exact (swap w s Hd)|].
    eapply steps_trans; [exact Hs1|].
    eapply steps_more; [exact (for_end w s1 Hd1)|].
    eapply steps_more; [|constructor].
    apply while_false; [reflexivity|]. simpl. now rewrite Hf1.
  - exact Hc1.
  - exact Hq1.
Qed.

(** X12.  If the flag is set while the callback thread is between the
    test of its [while] and the swap (taking the lock, at the [if], or
    waiting on the condition variable), then the thread can go on by
    itself (from the wait: once it is woken), and doing so, with the
    monitor inserting nothing more, it hands every queued pair to the
    callback, in order, and leaves its loop with the queue empty.  This
    is the case in which destruction does deliver what was queued. *)
Theorem flag_set_after_the_test_drains (callback : Callback C) (s : Session C) :
  _callback w = Some callback ->
  (forall l f e, callback l f e <> throws_other) ->
  _destory s = true ->
  past_the_test (dispatcher s) = true ->
  exists s',
    steps w s s' /\ dispatcher s' = exited /\
    calls s' = calls s ++ _callback_information s /\ _callback_information s' = [].
Proof.
  intros Hc Hstd Hf Hp.
  assert (Hswap : forall s0 : Session C,
             _destory s0 = true -> dispatcher s0 = at_swap ->
             calls s0 = calls s -> _callback_information s0 = _callback_information s ->
             steps w s s0 ->
             exists s',
               steps w s s' /\ dispatcher s' = exited /\
               calls s' = calls s ++ _callback_information s /\
               _callback_information s' = []).
  { intros s0 Hf0 Hd0 Hc0 Hq0 Hs0.
    destruct (drained_from_the_swap callback s0 Hc Hstd Hf0 Hd0) as (s' & Hs & Hd & Hcs & Hq).
    exists s'. rewrite Hc0, Hq0 in Hcs. repeat split; try assumption.
    eapply steps_trans; eassumption. }
  assert (Hpred : forall s0 : Session C,
             _destory s0 = true -> dispatcher s0 = at_wait_predicate ->
             step w s0 (goto s0 at_swap)).
  { intros s0 Hf0 Hd0. apply wait_predicate_true; [exact Hd0|].
    rewrite Hf0. apply orb_true_r. }
  assert (Hif : forall s0 : Session C,
             _destory s0 = true -> dispatcher s0 = at_if ->
             step w s0 (goto s0 at_swap)).
  { intros s0 Hf0 Hd0. apply if_else; [exact Hd0|].
    rewrite Hf0. apply andb_false_r. }
  destruct (dispatcher s) eqn:Hd; try discriminate.
  - (* at_lock *)
    apply (Hswap (goto (goto s at_if) at_swap)); try reflexivity; try exact Hf.
    eapply steps_more; [exact (lock w s Hd)|].
    eapply steps_more; [|constructor]. now apply Hif.
  - (* at_if *)
    apply (Hswap (goto s at_swap)); try reflexivity; try exact Hf.
    eapply steps_more; [|constructor]. now apply Hif.
  - (* at_wait_predicate *)
    apply (Hswap (goto s at_swap)); try reflexivity; try exact Hf.
    eapply steps_more; [|constructor]. now apply Hpred.
  - (* blocked *)
    apply (Hswap (goto (goto s at_wait_predicate) at_swap)); try reflexivity; try exact Hf.
    eapply steps_more; [exact (wake w s Hd)|].
    eapply steps_more; [|constructor]. now apply Hpred.
  - (* at_swap *)
    apply (Hswap s); try reflexivity; try assumption. constructor.
Qed.

End SessionMore.

Lemma nothing_happens_after_destruction_witness :
  ~ (exists s', step well_behaved (late_event_run well_behaved) s').
Proof.
  apply (nothing_happens_after_destruction well_behaved (late_event_run well_behaved)).
  - apply (late_event_run_reachable (Some (fun _ _ _ => returns))). reflexivity.
  - reflexivity.
Defined.

Lemma flag_set_after_the_test_drains_witness :
  exists s',
    steps well_behaved destroyed_before_the_lock s' /\ dispatcher s' = exited /\
    calls s' = [a_added] /\ _callback_information s' = [].
Proof.
  apply (flag_set_after_the_test_drains well_behaved (fun _ _ _ => returns)
           destroyed_before_the_lock).
  - reflexivity.
  - discriminate.
  - reflexivity.
  - reflexivity.
Defined.

Section LifecycleFacts.
Context {C : Type} `{CharType C}.
Local Open Scope Z_scope.

(** X13.  On unix a construction that succeeded followed by the
    destructor gives everything back: the watch, the two threads and the
    inotify descriptor. *)
Theorem unix_destructor_releases_everything
    (os : unix_calls C) (path : list C) (callback : option (Callback C))
    (held : list Held) (fw : FileWatch C) (dir : FolderInfo) :
  unix_construct os path callback = (held, value (fw, dir)) ->
  held = [descriptor (folder dir); watch (folder dir) (folder_watch dir);
          thread the_callback_thread; thread the_watch_thread] /\
  unix_destruct dir held = [].
Proof.
  unfold unix_construct, unix_get_directory, is_file.
  destruct (inotify_init os <? 0); [discriminate|].
  destruct (stat os path) as [single|]; [|discriminate].
  destruct (inotify_add_watch os _ _ _ <? 0); [discriminate|].
  intros Hc. injection Hc as <- _ <-. split; [reflexivity|].
  unfold unix_destruct, release. simpl. rewrite !Z.eqb_refl. reflexivity.
Qed.


(** X15.  On Windows, when [get_directory] has opened the directory and
    [CreateEvent] then fails, the constructor throws with the directory
    handle still open and no thread started. *)
Theorem failed_create_event_keeps_the_directory
    (os : win_calls C) (path : list C) (callback : option (Callback C))
    (held : list Held) (w : WatchTarget C) (dir : Z) :
  win_get_directory os [] path = (held, value (w, dir)) ->
  CreateEvent os = 0 ->
  win_construct os path callback = ([handle dir], system_error).
Proof.
  intros Hg He. unfold win_construct. rewrite Hg, He. simpl.
  revert Hg. unfold win_get_directory.
  destruct (GetFileAttributes os path =? INVALID_FILE_ATTRIBUTES); [discriminate|].
  destruct (CreateFile os _ =? INVALID_HANDLE_VALUE); [discriminate|].
  intros Hg. injection Hg as <- _ <-. reflexivity.
Qed.

(** X16.  The Windows monitor loop goes round until the test at its end
    reads the flag set, whatever the waits return: a failed wait ends
    nothing.  Every round inserts one batch, empty unless the wait
    returned [WAIT_OBJECT_0]; and [CancelIo] is called after the loop
    exactly when the last wait did not return [WAIT_OBJECT_0]. *)
Theorem win_monitor_runs_until_the_flag (fuel : nat) (w : WatchTarget C)
    (before after : list (win_round C)) (last : win_round C)
    (batches : list (list (Info C))) (last_batch : list (Info C)) :
  Forall (fun r => destory_at_test r = false) before ->
  destory_at_test last = true ->
  Forall2 (fun r b => win_round_parse fuel w r = Some (Batch b)) before batches ->
  win_round_parse fuel w last = Some (Batch last_batch) ->
  win_monitor fuel w (before ++ last :: after)
  = Some (batches ++ [last_batch], negb (wait_result last =? WAIT_OBJECT_0), thread_returns) /\
  Forall2 (fun r b => wait_result r <> WAIT_OBJECT_0 -> b = []) before batches.
Proof.
  intros Hflag Hlast Hparse Hlp. split.
  - revert Hflag. induction Hparse as [|r b before batches Hr Hrest IH]; intros Hflag.
    + simpl. now rewrite Hlp, Hlast.
    + inversion Hflag as [|r' before' Hrf Hbf]; subst.
      cbn [win_monitor app]. rewrite Hr, Hrf, (IH Hbf). reflexivity.
  - clear Hflag. induction Hparse as [|r b before batches Hr Hrest IH]; constructor.
    + intros Hw. unfold win_round_parse in Hr.
      apply Z.eqb_neq in Hw. rewrite Hw in Hr. now injection Hr as <-.
    + exact IH.
Qed.

(** X17.  On unix a [read] that fails or returns nothing (a length of
    zero or less) inserts nothing and ends nothing: the loop reads again,
    and the thread goes on as if these rounds had not been. *)
Theorem unix_monitor_retries_failed_reads (fuel : nat) (w : WatchTarget C)
    (idle rest : list (unix_round C)) :
  Forall (fun r => destory_at_while r = false /\ read_length r <= 0) idle ->
  unix_monitor fuel w (idle ++ rest) = unix_monitor fuel w rest.
Proof.
  induction 1 as [|r idle [Hf Hl] Hidle IH]; [reflexivity|].
  cbn [unix_monitor app]. rewrite Hf.
  replace (0 <? read_length r) with false by (symmetry; apply Z.ltb_ge; exact Hl).
  exact IH.
Qed.

End LifecycleFacts.

Lemma unix_destructor_releases_everything_witness :
  unix_destruct {| folder := 3; folder_watch := 1 |}
    [descriptor 3; watch 3 1; thread the_callback_thread; thread the_watch_thread] = [].
Proof.
  exact (proj2 (unix_destructor_releases_everything unix_succeeds (str "/tmp/w")
                  (_callback well_behaved) _ _ _ eq_refl)).
Defined.


Lemma failed_create_event_keeps_the_directory_witness :
  win_construct create_event_fails (str "C:/w") (_callback well_behaved)
  = ([handle 100], system_error).
Proof.
  exact (failed_create_event_keeps_the_directory create_event_fails (str "C:/w")
           (_callback well_behaved) _ _ _ eq_refl eq_refl).
Defined.

Lemma win_monitor_runs_until_the_flag_witness :
  win_monitor 3 directory_watch [failed_wait; rename_then_destroyed]
  = Some ([[]; [(str "a.txt", renamed_old); (str "b.txt", renamed_new)]],
          false, thread_returns).
Proof.
  apply (win_monitor_runs_until_the_flag 3 directory_watch
           [failed_wait] [] rename_then_destroyed [[]]
           [(str "a.txt", renamed_old); (str "b.txt", renamed_new)]).
  - repeat constructor.
  - reflexivity.
  - repeat constructor.
  - reflexivity.
Defined.

Lemma unix_monitor_retries_failed_reads_witness :
  unix_monitor 2 directory_watch [failed_read; failed_read; read_a]
  = unix_monitor 2 directory_watch [read_a].
Proof.
  apply (unix_monitor_retries_failed_reads 2 directory_watch
           [failed_read; failed_read] [read_a]).
  repeat constructor; discriminate.
Defined.
